(** * MudahScraper: a shallow embedding of [script.py] and its properties

    The development follows the class [MudahScraper] of [script.py].

    - Module [Py] holds the fragment of Python the scraper relies on:
      parsed JSON values with the behaviour of subscripting, [.get],
      iteration, [in] and hashing on each kind of value; the exceptions
      these raise; [str] methods and the three regular expressions.
    - Module [MudahScraper] holds the methods, one definition per method
      (and one per numbered "Method" block of [get_car_urls]), in a small
      state-and-exception monad whose state is the number of HTTP requests
      issued so far.
    - The theorems follow.

    The program meets its environment in three places, and the model takes
    each of them from the environment [Py.network]: what a request gives,
    what the pause before a request does (it can raise), and the order in
    which [list(car_urls)] enumerates a set.

    What is not modelled: the request headers, the [logging] calls, the
    [tqdm] progress bars, how long a pause lasts, and the pause that
    [get_car_urls] makes before its second and later attempts (an error
    there is one more failed attempt).

    A Python [str] is held as the [string] of its UTF-8 bytes, a JSON
    number as a [Z].  Subscripting and iteration see the characters of a
    string; the two operations that depend on the Unicode tables of the
    interpreter, [str.lower] and the class [\d] of [re], are modelled on
    ASCII strings, and the statements that rest on them say so. *)

From Stdlib Require Import ZArith Ascii String DecimalString.
From Stdlib Require DecimalPos DecimalZ.
From stdpp Require Import base option list gmap strings.
From Equations Require Import Equations.

Local Open Scope string_scope.
Local Open Scope Z_scope.
Local Open Scope list_scope.

(* ===================================================================== *)
(** * The Python fragment *)
(* ===================================================================== *)

Module Py.

(** ** Exceptions *)

(** The exception classes that the code names or that its operations
    raise.  [RequestException] stands for the whole [requests] hierarchy
    below it; [ValueError] and [OverflowError] are what [time.sleep] raises
    for a negative delay and for one that is too long; [OtherException]
    stands for any class outside the ones listed (all of them derive from
    [Exception]). *)
Inductive exn : Set :=
| RequestException
| JSONDecodeError
| IndexError
| KeyError
| TypeError
| AttributeError
| ValueError
| OverflowError
| OtherException.

Definition exn_eqb (a b : exn) : bool :=
  match a, b with
  | RequestException, RequestException
  | JSONDecodeError, JSONDecodeError
  | IndexError, IndexError
  | KeyError, KeyError
  | TypeError, TypeError
  | AttributeError, AttributeError
  | ValueError, ValueError
  | OverflowError, OverflowError
  | OtherException, OtherException => true
  | _, _ => false
  end.

(** [except (E1, E2, ...)]: does the handler catch [e]? *)
Definition caught_by (classes : list exn) (e : exn) : bool :=
  existsb (exn_eqb e) classes.

(** The outcome of evaluating a Python expression. *)
Inductive result (A : Type) : Type :=
| Ok (a : A)
| Raise (e : exn).
Arguments Ok {A} a.
Arguments Raise {A} e.

Definition result_bind {A B} (f : A → result B) (r : result A) : result B :=
  match r with
  | Ok a => f a
  | Raise e => Raise e
  end.

#[global] Instance result_ret : MRet result := @Ok.
#[global] Instance result_mbind : MBind result := @result_bind.

Definition is_ok {A} (r : result A) : bool :=
  match r with Ok _ => true | Raise _ => false end.

(** ** Strings

    A [str] is held as its UTF-8 bytes.  Prefixes, suffixes, substrings and
    equality of two strings are the same on bytes and on characters. *)

(** [s.startswith(p)] *)
Definition startswith (s p : string) : bool := String.prefix p s.

(** [c.lower()] on one byte: only [A]..[Z] change. *)
Definition lower_ascii (c : ascii) : ascii :=
  let n := nat_of_ascii c in
  if ((65 <=? n)%nat && (n <=? 90)%nat)%bool then ascii_of_nat (n + 32) else c.

(** [s.lower()] for a string of ASCII characters.  On other characters
    Python follows the Unicode tables of the interpreter, which the model
    does not have: there the bytes are left as they are. *)
Fixpoint lower (s : string) : string :=
  match s with
  | EmptyString => EmptyString
  | String c r => String (lower_ascii c) (lower r)
  end.

(** [str(n)] for an [int]. *)
Definition str_of_int (n : Z) : string := NilZero.string_of_int (Z.to_int n).

(** [needle in hay] for two strings. *)
Fixpoint contains (hay needle : string) : bool :=
  String.prefix needle hay ||
  match hay with
  | EmptyString => false
  | String _ r => contains r needle
  end.

(** [s.endswith(p)] *)
Fixpoint endswith (s p : string) : bool :=
  String.eqb s p ||
  match s with
  | EmptyString => false
  | String _ r => endswith r p
  end.

(** [s[n:]] *)
Fixpoint drop_prefix (n : nat) (s : string) : string :=
  match n, s with
  | S n', String _ r => drop_prefix n' r
  | _, _ => s
  end.

(** [range(start, stop)] *)
Definition range (start stop : Z) : list Z :=
  (λ i : nat, start + Z.of_nat i) <$> seq 0 (Z.to_nat (stop - start)).

(** ** Regular expressions

    Each pattern of the program gets its own matcher.  [.] matches any
    character but a newline, and [re.search] (which BeautifulSoup also
    uses for an attribute filter) looks for a match at every position,
    leftmost first. *)

Definition newline : ascii := ascii_of_nat 10.

(** [\d] on a string of ASCII characters: one of [0]..[9].  Python also
    takes the decimal digits of other scripts, as the Unicode tables of the
    interpreter list them; the model does not have them. *)
Definition is_digit (c : ascii) : bool :=
  let n := nat_of_ascii c in ((48 <=? n)%nat && (n <=? 57)%nat)%bool.

(** [.+\.html?] anchored at the start of [s].  The optional [l] never
    decides whether there is a match. *)
Fixpoint match_dot_plus_htm (s : string) : bool :=
  match s with
  | EmptyString => false
  | String c r =>
      if Ascii.eqb c newline then false
      else (String.prefix ".htm" r || match_dot_plus_htm r)%bool
  end.

(** [/cars/.+\.html?] anchored at the start of [s]. *)
Definition match_cars_htm (s : string) : bool :=
  (String.prefix "/cars/" s && match_dot_plus_htm (drop_prefix 6 s))%bool.

(** [pattern.search(s)] as a truth value, for an anchored matcher. *)
Fixpoint re_search (anchored : string → bool) (s : string) : bool :=
  anchored s ||
  match s with
  | EmptyString => false
  | String _ r => re_search anchored r
  end.

(** [re.compile(r'/cars/.+\.html?')] *)
Definition re_cars_html : string → bool := re_search match_cars_htm.
(** [re.compile(r'.+\.html?')] *)
Definition re_html : string → bool := re_search match_dot_plus_htm.

(** The longest prefix of digits, and what follows it. *)
Fixpoint span_digits (s : string) : string * string :=
  match s with
  | EmptyString => (EmptyString, EmptyString)
  | String c r =>
      if is_digit c then let '(d, rest) := span_digits r in (String c d, rest)
      else (EmptyString, s)
  end.

(** [(\d+)\.htm] anchored at the start of [s], giving group 1.  The
    digits are followed by a [.], so only the longest run of digits can
    match. *)
Definition match_digits_htm (s : string) : option string :=
  let '(d, rest) := span_digits s in
  if (negb (String.eqb d "") && String.prefix ".htm" rest)%bool then Some d else None.

(** [re.search(r'-(\d+)\.htm', s)], giving group 1 of the leftmost match. *)
Fixpoint re_search_ad_no (s : string) : option string :=
  match s with
  | EmptyString => None
  | String c r =>
      if Ascii.eqb c "-" then
        match match_digits_htm r with
        | Some d => Some d
        | None => re_search_ad_no r
        end
      else re_search_ad_no r
  end.

(** ** Values

    What [json.loads] returns: [None], [bool], [int], [str], [list] and
    [dict] with string keys.  A [dict] is kept as the list of its items in
    insertion order; a lookup takes the first item with the key. *)
#[local] Set Warnings "-register-all".
Inductive value : Type :=
| VNone
| VBool (b : bool)
| VInt (n : Z)
| VStr (s : string)
| VList (items : list value)
| VDict (items : list (string * value)).

Fixpoint dict_lookup (k : string) (items : list (string * value)) : option value :=
  match items with
  | [] => None
  | (k', v) :: r => if String.eqb k k' then Some v else dict_lookup k r
  end.

(** A byte that continues a character in UTF-8: [10xxxxxx]. *)
Definition is_continuation (c : ascii) : bool :=
  let n := nat_of_ascii c in ((128 <=? n)%nat && (n <? 192)%nat)%bool.

(** The characters of a string: each byte that begins one, with the
    continuation bytes that follow it. *)
Fixpoint characters (s : string) : list string :=
  match s with
  | EmptyString => []
  | String c r =>
      match characters r with
      | ch :: chs =>
          if match r with String c' _ => is_continuation c' | EmptyString => false end
          then String c ch :: chs
          else String c EmptyString :: ch :: chs
      | [] => [String c EmptyString]
      end
  end.

(** [x[i]] for an integer literal [i >= 0]. *)
Definition getitem_int (x : value) (i : nat) : result value :=
  match x with
  | VList l => match l !! i with Some v => Ok v | None => Raise IndexError end
  | VStr s => match characters s !! i with
              | Some c => Ok (VStr c)
              | None => Raise IndexError
              end
  | VDict _ => Raise KeyError
  | VNone | VBool _ | VInt _ => Raise TypeError
  end.

(** [x[k]] for a string [k]. *)
Definition getitem_str (x : value) (k : string) : result value :=
  match x with
  | VDict d => match dict_lookup k d with Some v => Ok v | None => Raise KeyError end
  | _ => Raise TypeError
  end.

(** [x.get(k, default)]: only a [dict] has the method. *)
Definition get (x : value) (k : string) (default : value) : result value :=
  match x with
  | VDict d => Ok (match dict_lookup k d with Some v => v | None => default end)
  | _ => Raise AttributeError
  end.

(** [for c in s] for a string: its characters, each a string. *)
Definition chars (s : string) : list value := VStr <$> characters s.

(** [for v in x]: the values the loop sees. *)
Definition iter (x : value) : result (list value) :=
  match x with
  | VList l => Ok l
  | VDict d => Ok ((λ kv, VStr kv.1) <$> d)
  | VStr s => Ok (chars s)
  | VNone | VBool _ | VInt _ => Raise TypeError
  end.

(** [a == b] between values that can be members of a [set]. *)
Definition value_eqb (a b : value) : bool :=
  match a, b with
  | VNone, VNone => true
  | VBool x, VBool y => Bool.eqb x y
  | VInt n, VInt m => n =? m
  | VBool x, VInt n | VInt n, VBool x => n =? (if x then 1 else 0)
  | VStr s, VStr t => String.eqb s t
  | _, _ => false
  end.

(** [k in x] for a string [k]: a key of a [dict], an element of a [list],
    a substring of a [str]. *)
Definition contains_str (k : string) (x : value) : result bool :=
  match x with
  | VDict d => Ok (bool_decide (is_Some (dict_lookup k d)))
  | VList l => Ok (existsb (value_eqb (VStr k)) l)
  | VStr s => Ok (contains s k)
  | VNone | VBool _ | VInt _ => Raise TypeError
  end.

Definition hashable (x : value) : bool :=
  match x with
  | VList _ | VDict _ => false
  | _ => true
  end.

(** A [set], as the list of its members in the order in which they were
    first added.  Python does not enumerate a set in this order:
    [list(s)] is taken from the environment, see [list_of_set] below. *)
Definition set_insert (s : list value) (x : value) : list value :=
  if existsb (value_eqb x) s then s else s ++ [x].

(** [s.add(x)] *)
Definition set_add (s : list value) (x : value) : result (list value) :=
  if hashable x then Ok (set_insert s x) else Raise TypeError.

(** [len(l)] *)
Definition len {A} (l : list A) : Z := Z.of_nat (length l).

(** ** Pages

    A fetched page as BeautifulSoup answers the queries the program makes:
    for each [<script>] the program looks for, whether it is there and what
    [json.loads] makes of its text; for each CSS selector, the elements it
    selects, an element being the [href]s of the [<a>] tags below it, in
    document order. *)
Definition element : Type := list string.

Record soup : Type := Soup {
  ld_json : option (result value);        (* script type="application/ld+json" *)
  listing_card : list element;            (* div[class*="listing-card"] *)
  listing_item : list element;            (* div[class*="listing-item"] *)
  product_card : list element;            (* div[class*="product-card"] *)
  next_data : option (result value);      (* script id="__NEXT_DATA__" *)
  application_json : option (result value) (* script type="application/json" *)
}.

(** [element.find('a', href=pattern)] *)
Definition find_a (pattern : string → bool) (el : element) : option string :=
  List.find pattern el.

(** ** The environment and the monad of the methods

    The state is the number of requests issued so far.  The environment
    tells three things.

    - [request]: for the [n]-th request and its URL, what
      [scraper.get(url); response.raise_for_status()] does: it gives a page
      or raises.  An environment is applied to [n] and the URL directly.
    - [sleep]: what the pause before a request does.  The program draws
      [jitter = random.uniform(0.5, 1.5)], computes
      [delay = (base_delay * (2 ** retry_count)) * jitter] and calls
      [time.sleep(delay)].  These statements either go through or raise:
      [time.sleep] a [ValueError] when the delay is negative and an
      [OverflowError] when it is too long for the platform, the
      multiplication an [OverflowError] when the integer does not fit a
      float, any call a [RecursionError] when the stack is used up.  The
      environment answers for the state the pause is made in, [base_delay]
      and [retry_count].
    - [list_of_set]: the order in which [list(s)] enumerates a set, given
      as the members in the order in which they were added.  It depends on
      the hashes of the members, which change from run to run; it is a
      permutation of the members. *)
Record network : Type := Network {
  request :> nat → value → result soup;
  sleep : nat → Z → Z → option exn;
  list_of_set : list value → list value;
  list_of_set_perm : ∀ s, list_of_set s ≡ₚ s
}.

Definition M (A : Type) : Type := nat → result A * nat.

Definition M_bind {A B} (f : A → M B) (m : M A) : M B :=
  λ w, match m w with
       | (Ok a, w') => f a w'
       | (Raise e, w') => (Raise e, w')
       end.

#[global] Instance M_ret : MRet M := λ A a w, (Ok a, w).
#[global] Instance M_mbind : MBind M := @M_bind.

(** A computation that touches no state. *)
Definition lift {A} (r : result A) : M A := λ w, (r, w).

(** [try: body / except Exception: handler]; every class of [exn] derives
    from [Exception]. *)
Definition try_except_Exception {A} (body : M A) (handler : exn → M A) : M A :=
  λ w, match body w with
       | (Raise e, w') => handler e w'
       | r => r
       end.

End Py.

(* ===================================================================== *)
(** * The scraper *)
(* ===================================================================== *)

Module MudahScraper.
Import Py.

(** The attributes [__init__] sets from its arguments. *)
Record scraper : Type := Scraper {
  max_retries : Z;
  base_delay : Z
}.

(** [MudahScraper()] with the default arguments. *)
Definition default_scraper : scraper := {| max_retries := 3; base_delay := 2 |}.

(** [self.keys] *)
Definition keys : list string :=
  [ "price";
    "location"; "condition"; "make"; "model";
    "car_type"; "transmission"; "engine_capacity"; "mileage";
    "manufactured_date"; "ads_id"; "family"; "variant"; "series";
    "style"; "seat"; "country_origin"; "cc"; "comp_ratio"; "kw";
    "torque"; "engine"; "fuel_type"; "length"; "width"; "height";
    "wheelbase"; "kerbwt"; "fueltk"; "brake_front"; "brake_rear";
    "suspension_front"; "suspension_rear"; "steering"; "tyres_front";
    "tyres_rear"; "wheel_rim_front"; "wheel_rim_rear" ].

(** The [try] block of [_make_request]: the pause, then the request.  An
    exception of the pause leaves the block before the request is
    issued. *)
Definition try_request (self : scraper) (net : network) (url : value)
    (retry_count : Z) : M soup :=
  λ w, match sleep net w (base_delay self) retry_count with
       | Some e => (Raise e, w)
       | None => (net w url, S w)
       end.

(** [_make_request(self, url, retry_count)].  Each call runs the [try]
    block once; a [RequestException] leads to the recursive call while
    [retry_count < self.max_retries] and is raised again otherwise; any
    other exception is not handled. *)
Equations? _make_request (self : scraper) (net : network) (url : value)
    (retry_count : Z) (w : nat) : result soup * nat
    by wf (Z.to_nat (max_retries self - retry_count)) lt :=
  _make_request self net url retry_count w
    with try_request self net url retry_count w := {
    | (Ok response, w') := (Ok response, w')
    | (Raise e, w') with caught_by [RequestException] e := {
      | false := (Raise e, w')
      | true with Z_lt_dec retry_count (max_retries self) := {
        | left _ := _make_request self net url (retry_count + 1) w'
        | right _ := (Raise e, w') } } }.
Proof. lia. Qed.

(** *** [get_car_urls]: the three extraction methods

    Each method takes the set [car_urls] as it stands and gives the set it
    leaves, or the exception that escapes its own [try] (and so abandons the
    attempt). *)

(** [car_urls.update(item['item']['url'] for item in items)]: the members
    are added one by one, so the ones added before an exception stay. *)
Fixpoint update_item_urls (items : list value) (car_urls : list value)
    : list value * option exn :=
  match items with
  | [] => (car_urls, None)
  | item :: rest =>
      match (i ← getitem_str item "item"; u ← getitem_str i "url"; set_add car_urls u) with
      | Ok car_urls' => update_item_urls rest car_urls'
      | Raise e => (car_urls, Some e)
      end
  end.

(** What an inner [try] leaves: the set, or the exception when its
    [except] clause does not name it. *)
Definition inner_except (classes : list exn) (r : list value * option exn)
    : result (list value) :=
  match r with
  | (car_urls, None) => Ok car_urls
  | (car_urls, Some e) => if caught_by classes e then Ok car_urls else Raise e
  end.

(** Method 1: Extract from LD+JSON data. *)
Definition method1 (sp : soup) (car_urls : list value) : result (list value) :=
  match ld_json sp with
  | None => Ok car_urls
  | Some loaded =>
      inner_except [JSONDecodeError; IndexError; KeyError]
        match (data ← loaded;
               third ← getitem_int data 2;
               item_list_element ← get third "itemListElement" (VList []);
               iter item_list_element) with
        | Ok items => update_item_urls items car_urls
        | Raise e => (car_urls, Some e)
        end
  end.

(** [select(A) or select(B) or select(C)] *)
Definition listing_elements (sp : soup) : list element :=
  match listing_card sp with
  | _ :: _ => listing_card sp
  | [] => match listing_item sp with
          | _ :: _ => listing_item sp
          | [] => product_card sp
          end
  end.

(** The URL one listing element contributes, if it has a link. *)
Definition element_url (el : element) : option string :=
  let link := match find_a re_cars_html el with
              | Some href => Some href
              | None => find_a re_html el
              end in
  match link with
  | Some url =>
      Some (if negb (startswith url "http") then "https://www.mudah.my" +:+ url else url)
  | None => None
  end.

(** Method 2: Extract from regular HTML elements. *)
Definition method2 (sp : soup) (car_urls : list value) : list value :=
  foldl (λ car_urls el,
           match element_url el with
           | Some url => set_insert car_urls (VStr url)
           | None => car_urls
           end) car_urls (listing_elements sp).

(** [for listing in listings: if 'url' in listing: car_urls.add(listing['url'])] *)
Fixpoint add_listing_urls (listings : list value) (car_urls : list value)
    : list value * option exn :=
  match listings with
  | [] => (car_urls, None)
  | listing :: rest =>
      match (has_url ← contains_str "url" listing;
             if has_url : bool then u ← getitem_str listing "url"; set_add car_urls u
             else Ok car_urls) with
      | Ok car_urls' => add_listing_urls rest car_urls'
      | Raise e => (car_urls, Some e)
      end
  end.

(** Method 3: Search for next data script. *)
Definition method3 (sp : soup) (car_urls : list value) : result (list value) :=
  match next_data sp with
  | None => Ok car_urls
  | Some loaded =>
      inner_except [JSONDecodeError; KeyError]
        match (data ← loaded;
               props ← get data "props" (VDict []);
               page_props ← get props "pageProps" (VDict []);
               listings ← get page_props "items" (VList []);
               iter listings) with
        | Ok listings => add_listing_urls listings car_urls
        | Raise e => (car_urls, Some e)
        end
  end.

(** The three methods in sequence on [car_urls = set()]: the set they
    leave. *)
Definition extract_car_urls (sp : soup) : result (list value) :=
  car_urls ← method1 sp [];
  car_urls ← method3 sp (method2 sp car_urls);
  Ok car_urls.

(** The statements of the [try] block from the request up to
    [result_urls = list(car_urls)]. *)
Definition fetch_car_urls (self : scraper) (net : network) (page_url : value)
    : M (list value) :=
  response ← _make_request self net page_url 0;
  car_urls ← lift (extract_car_urls response);
  mret (list_of_set net car_urls).

(** The [while retry_count < max_retries] loop of [get_car_urls]. *)
Equations? get_car_urls_loop (self : scraper) (net : network) (page_url : value)
    (expected_urls max_retries : Z) (retry_count : Z) (best_result : list value)
    (w : nat) : result (list value) * nat
    by wf (Z.to_nat (max_retries - retry_count)) lt :=
  get_car_urls_loop self net page_url expected_urls max_retries retry_count best_result w
    with Z_lt_dec retry_count max_retries := {
    | right _ := (Ok best_result, w)
    | left _ with fetch_car_urls self net page_url w := {
      | (Ok result_urls, w') with len result_urls >=? expected_urls := {
        | true := (Ok result_urls, w')
        | false :=
            get_car_urls_loop self net page_url expected_urls max_retries
              (retry_count + 1)
              (if len result_urls >? len best_result then result_urls else best_result)
              w' }
      | (Raise e, w') :=
          get_car_urls_loop self net page_url expected_urls max_retries
            (retry_count + 1) best_result w' } }.
Proof. all: lia. Qed.

(** [get_car_urls(self, page_url, expected_urls, max_retries)] *)
Definition get_car_urls (self : scraper) (net : network) (page_url : value)
    (expected_urls max_retries : Z) : M (list value) :=
  get_car_urls_loop self net page_url expected_urls max_retries 0 [].

(** [parse_mcdparams(self, car_mcdparams)] *)
Definition parse_params (params : value) : result value :=
  real_value ← get params "realValue" (VStr "");
  id ← get params "id" (VStr "");
  val ← get params "value" (VStr "");
  label ← get params "label" (VStr "");
  Ok (VDict [("realValue", real_value); ("id", id); ("value", val); ("label", label)]).

Fixpoint parse_group_params (params : list value) (other_dets : list value)
    : result (list value) :=
  match params with
  | [] => Ok other_dets
  | p :: rest => d ← parse_params p; parse_group_params rest (other_dets ++ [d])
  end.

Fixpoint parse_groups (groups : list value) (other_dets : list value)
    : result (list value) :=
  match groups with
  | [] => Ok other_dets
  | group :: rest =>
      params ← get group "params" (VList []);
      params ← iter params;
      other_dets ← parse_group_params params other_dets;
      parse_groups rest other_dets
  end.

Definition parse_mcdparams (car_mcdparams : value) : result (list value) :=
  groups ← iter car_mcdparams;
  parse_groups groups [].

(** [get_page_urls(state, brand, start, end)] *)
Definition get_page_urls (state brand : string) (start end_ : Z) : list string :=
  let base_url := "https://www.mudah.my" in
  let state := if String.eqb state "" then "malaysia" else lower state in
  let url :=
    if (String.eqb (lower brand) "none" || String.eqb brand "")%bool
    then base_url +:+ "/" +:+ state +:+ "/cars-for-sale?o="
    else base_url +:+ "/" +:+ state +:+ "/cars-for-sale/" +:+ brand +:+ "?o=" in
  (λ page, url +:+ str_of_int page) <$> range start (end_ + 1).

(** *** [get_car_info] *)

(** [soup.find('script', id="__NEXT_DATA__") or
     soup.find('script', type='application/json')], with what [json.loads]
    makes of the tag found.  A tag is always true. *)
Definition script_tag (sp : soup) : option (result value) :=
  match next_data sp with
  | Some loaded => Some loaded
  | None => application_json sp
  end.

(** [re.search(r'-(\d+)\.htm', url).group(1)] *)
Definition car_ads_no_of (url : value) : result string :=
  match url with
  | VStr s => match re_search_ad_no s with
              | Some d => Ok d
              | None => Raise AttributeError
              end
  | _ => Raise TypeError
  end.

(** The one element of [dict_id]. *)
Definition ads_id_entry (car_ads_no : string) : value :=
  VDict [("realValue", VStr ""); ("id", VStr "ads_id");
         ("value", VStr car_ads_no); ("label", VStr "id ads")].

(** [car_attrs + dict_id + mcd_params], the last two being lists. *)
Definition add_lists (car_attrs : value) (dict_id mcd_params : list value)
    : result (list value) :=
  match car_attrs with
  | VList l => Ok ((l ++ dict_id) ++ mcd_params)
  | _ => Raise TypeError
  end.

(** The statements after [script_tag] is found. *)
Definition car_dets_of (loaded : result value) (url : value) : result (list value) :=
  data ← loaded;
  car_ads_no ← car_ads_no_of url;
  let dict_id := [ads_id_entry car_ads_no] in
  props ← get data "props" (VDict []);
  initial_state ← get props "initialState" (VDict []);
  ad_details ← get initial_state "adDetails" (VDict []);
  by_id ← get ad_details "byID" (VDict []);
  ads_id ← get by_id car_ads_no (VDict []);
  attributes ← get ads_id "attributes" (VDict []);
  car_attrs ← get attributes "categoryParams" (VList []);
  attributes ← get ads_id "attributes" (VDict []);
  car_mcdparams ← get attributes "mcdParams" (VList []);
  mcd_params ← parse_mcdparams car_mcdparams;
  add_lists car_attrs dict_id mcd_params.

(** [get_car_info(self, url)]; [None] is Python's [None]. *)
Definition get_car_info (self : scraper) (net : network) (url : value)
    : M (option (list value)) :=
  try_except_Exception
    (response ← _make_request self net url 0;
     match script_tag response with
     | None => mret None
     | Some loaded => car_dets ← lift (car_dets_of loaded url); mret (Some car_dets)
     end)
    (λ _, mret None).

(** *** [scrape_cars] *)

(** The first loop: [car_urls.extend(self.get_car_urls(url, ...))] for each
    page, [max_retries] keeping its default, 3. *)
Fixpoint collect_car_urls (self : scraper) (net : network) (page_urls : list string)
    (expected_urls_per_page : Z) (car_urls : list value) : M (list value) :=
  match page_urls with
  | [] => mret car_urls
  | url :: rest =>
      urls ← get_car_urls self net (VStr url) expected_urls_per_page 3;
      collect_car_urls self net rest expected_urls_per_page (car_urls ++ urls)
  end.

(** [if result:] for what [get_car_info] returns: [None] and the empty
    list are false. *)
Definition truthy (result : option (list value)) : bool :=
  match result with
  | Some (_ :: _) => true
  | _ => false
  end.

(** The second loop: [result = self.get_car_info(url)], appended to
    [car_data] when true. *)
Fixpoint collect_car_data (self : scraper) (net : network) (car_urls : list value)
    (car_data : list (list value)) : M (list (list value)) :=
  match car_urls with
  | [] => mret car_data
  | url :: rest =>
      result ← get_car_info self net url;
      collect_car_data self net rest
        (match result with
         | Some r => if truthy result then car_data ++ [r] else car_data
         | None => car_data
         end)
  end.

(** [if item['id'] in self.keys: car_dict[item['id']] = item['value']] *)
Definition set_item (car_dict : gmap string value) (item : value)
    : result (gmap string value) :=
  id ← getitem_str item "id";
  match id with
  | VStr k =>
      if bool_decide (k ∈ keys) then
        v ← getitem_str item "value"; Ok (<[k := v]> car_dict)
      else Ok car_dict
  | _ => Ok car_dict
  end.

(** [for item in car_attrs: ...] on the dictionary [car_dict]. *)
Fixpoint fill_car_dict (car_attrs : list value) (car_dict : gmap string value)
    : result (gmap string value) :=
  match car_attrs with
  | [] => Ok car_dict
  | item :: rest => car_dict ← set_item car_dict item; fill_car_dict rest car_dict
  end.

(** The third loop: one [car_dict], starting empty, for each element of
    [car_data]. *)
Fixpoint process_data (car_data : list (list value))
    (processed_data : list (gmap string value)) : result (list (gmap string value)) :=
  match car_data with
  | [] => Ok processed_data
  | car_attrs :: rest =>
      car_dict ← fill_car_dict car_attrs ∅;
      process_data rest (processed_data ++ [car_dict])
  end.

(** [scrape_cars(self, state, brand, start, end, expected_urls_per_page)];
    the data frame is given by its rows. *)
Definition scrape_cars (self : scraper) (net : network) (state brand : string)
    (start end_ : Z) (expected_urls_per_page : Z) : M (list (gmap string value)) :=
  let page_urls := get_page_urls state brand start end_ in
  car_urls ← collect_car_urls self net page_urls expected_urls_per_page [];
  car_data ← collect_car_data self net car_urls [];
  lift (process_data car_data []).

End MudahScraper.

Import Py MudahScraper.

(* ===================================================================== *)
(** * Vocabulary of the statements *)
(* ===================================================================== *)

(** ** Pages and networks to try the methods on *)

(** An environment with the given answers to the requests, in which no
    pause raises and a set is enumerated in the order of insertion. *)
Definition plain_network (answers : nat → value → result soup) : network :=
  {| request := answers;
     sleep := λ _ _ _, None;
     list_of_set := λ s, s;
     list_of_set_perm := λ s, Permutation_refl s |}.

(** An environment in which [time.sleep] refuses a negative delay. *)
Definition strict_sleep_network (answers : nat → value → result soup) : network :=
  {| request := answers;
     sleep := λ _ base_delay _, if base_delay <? 0 then Some ValueError else None;
     list_of_set := λ s, s;
     list_of_set_perm := λ s, Permutation_refl s |}.

(** A network that answers every request with the same page. *)
Definition constant_network (sp : soup) : network := plain_network (λ _ _, Ok sp).

(** A network on which every request raises [e]. *)
Definition failing_network (e : exn) : network := plain_network (λ _ _, Raise e).

(** A page that only has the given structured-data script. *)
Definition page_with_ld_json (data : value) : soup :=
  {| ld_json := Some (Ok data); listing_card := []; listing_item := [];
     product_card := []; next_data := None; application_json := None |}.

(** A page that only has listing cards, one link in each. *)
Definition page_with_cards (hrefs : list string) : soup :=
  {| ld_json := None; listing_card := (λ h, [h]) <$> hrefs; listing_item := [];
     product_card := []; next_data := None; application_json := None |}.

(** A page that only has the embedded state script. *)
Definition page_with_state (data : value) : soup :=
  {| ld_json := None; listing_card := []; listing_item := []; product_card := [];
     next_data := Some (Ok data); application_json := None |}.

(** A payload with one ad, given by its identifier and its attributes. *)
Definition ad_payload (car_ads_no : string) (attributes : value) : value :=
  VDict [("props",
          VDict [("initialState",
                  VDict [("adDetails",
                          VDict [("byID",
                                  VDict [(car_ads_no,
                                          VDict [("attributes", attributes)])])])])])].

(** An attribute with an identifier and a value. *)
Definition attribute (id val : string) : value :=
  VDict [("id", VStr id); ("value", VStr val)].

(** A site of two result pages with two listings each, every listing
    having a price and a make. *)
Definition two_page_site : network := plain_network (λ _ url,
  match url with
  | VStr s =>
      if startswith s "https://www.mudah.my/malaysia/cars-for-sale?o=" then
        Ok (page_with_cards
              (if endswith s "=1" then ["/cars/vios-1.htm"; "/cars/myvi-2.htm"]
               else ["/cars/saga-3.htm"; "/cars/city-4.htm"]))
      else
        match re_search_ad_no s with
        | Some car_ads_no =>
            Ok (page_with_state
                  (ad_payload car_ads_no
                     (VDict [("categoryParams",
                              VList [attribute "price" "RM 50 000";
                                     attribute "make" "Toyota"])])))
        | None => Raise RequestException
        end
  | _ => Raise RequestException
  end).

(** A site of two result pages with one listing each, every listing
    having a price and a make. *)
Definition one_listing_site : network := plain_network (λ _ url,
  match url with
  | VStr s =>
      if startswith s "https://www.mudah.my/malaysia/cars-for-sale?o=" then
        Ok (page_with_cards
              (if endswith s "=1" then ["/cars/vios-1.htm"] else ["/cars/saga-3.htm"]))
      else
        match re_search_ad_no s with
        | Some car_ads_no =>
            Ok (page_with_state
                  (ad_payload car_ads_no
                     (VDict [("categoryParams",
                              VList [attribute "price" "RM 50 000";
                                     attribute "make" "Toyota"])])))
        | None => Raise RequestException
        end
  | _ => Raise RequestException
  end).

(** The record expected for a listing of [two_page_site] or of
    [one_listing_site]. *)
Definition two_page_site_record (car_ads_no : string) : gmap string value :=
  <["ads_id" := VStr car_ads_no]>
    (<["make" := VStr "Toyota"]> (<["price" := VStr "RM 50 000"]> ∅)).

(** ** The runs of the [try] block of [_make_request] *)

(** The state in which run number [i] of the [try] block begins (the
    first is number 0), for a call entered with [retry_count] in the
    state [w] whose earlier runs each led to the recursive call.  Run
    number [i] has the retry count [retry_count + i]. *)
Fixpoint try_state (self : scraper) (net : network) (url : value)
    (i : nat) (retry_count : Z) (w : nat) : nat :=
  match i with
  | O => w
  | S i' =>
      try_state self net url i' (retry_count + 1)
        (try_request self net url retry_count w).2
  end.

(** ** The attempts of [get_car_urls] *)

(** The outcomes of [n] consecutive runs of the [try] block of
    [get_car_urls] from the state [w], each with the state it leaves. *)
Fixpoint attempts (self : scraper) (net : network) (page_url : value)
    (n : nat) (w : nat) : list (result (list value) * nat) :=
  match n with
  | O => []
  | S n' =>
      let o := fetch_car_urls self net page_url w in
      o :: attempts self net page_url n' o.2
  end.

(** An attempt whose URL set has at least [expected_urls] members. *)
Definition reaches (expected_urls : Z) (o : result (list value) * nat) : Prop :=
  match o.1 with
  | Ok result_urls => expected_urls ≤ len result_urls
  | Raise _ => False
  end.

#[global] Instance reaches_dec expected_urls o : Decision (reaches expected_urls o).
Proof. unfold reaches. destruct o.1; apply _. Defined.

(** The state a trace of attempts started in [w] ends in. *)
Definition state_after (w : nat) (trace : list (result (list value) * nat)) : nat :=
  default w (snd <$> last trace).

(** ** Listing URLs *)

(** A listing URL as the data model wants it: a string that begins with a
    scheme and ends with the name of an HTML document. *)
Definition absolute_html_url (u : value) : bool :=
  match u with
  | VStr s =>
      (startswith s "http://" || startswith s "https://")
      && (endswith s ".htm" || endswith s ".html")
  | _ => false
  end.

(** ** The payload of a detail page *)









(** ** The loops of [scrape_cars] *)

(** What [get_car_info] returns for each URL of a list in turn, from the
    state [w] to the state [w']. *)
Inductive car_infos (self : scraper) (net : network)
    : list value → nat → list (option (list value)) → nat → Prop :=
| car_infos_nil w : car_infos self net [] w [] w
| car_infos_cons url car_urls w result w1 results w2 :
    get_car_info self net url w = (Ok result, w1) →
    car_infos self net car_urls w1 results w2 →
    car_infos self net (url :: car_urls) w (result :: results) w2.

(** An attribute as the third loop of [scrape_cars] reads it: an object
    with an [id] and a [value]. *)
Definition raw_attribute (item : value) : bool :=
  match item with
  | VDict d => bool_decide (is_Some (dict_lookup "id" d))
               && bool_decide (is_Some (dict_lookup "value" d))
  | _ => false
  end.

(** The attribute has the string [k] as its [id]. *)
Definition has_id (k : string) (item : value) : Prop :=
  getitem_str item "id" = Ok (VStr k).

#[global] Instance has_id_dec k item : Decision (has_id k item).
Proof.
  unfold has_id. destruct (getitem_str item "id") as [[| | |s| |]|];
    try (right; congruence).
  destruct (decide (s = k)) as [->|]; [by left|right; congruence].
Defined.

(** The [value] of an attribute, when it has one. *)
Definition value_of (item : value) : option value :=
  match getitem_str item "value" with
  | Ok v => Some v
  | Raise _ => None
  end.

(** ** Sets *)

(** No two members of the list are equal as Python compares them. *)
Fixpoint distinct (s : list value) : bool :=
  match s with
  | [] => true
  | x :: r => negb (existsb (value_eqb x) r) && distinct r
  end.

(** The invariant of [car_urls]: distinct members that can be hashed. *)
Definition is_set (s : list value) : Prop :=
  distinct s = true ∧ Forall hashable s.

(** The exceptions of a value of the wrong shape. *)
Definition shape_error (e : exn) : Prop := e = TypeError ∨ e = AttributeError.

(** What [json.loads] can do with the text of a script: succeed, raise a
    [JSONDecodeError] on the text, or a [TypeError] when the tag has no
    text to give. *)
Definition loads_outcome (script : option (result value)) : Prop :=
  ∀ e, script = Some (Raise e) → e = JSONDecodeError ∨ e = TypeError.

(** A page whose structured data lists the given items. *)
Definition page_with_items (x0 x1 : value) (items : list value) : soup :=
  page_with_ld_json (VList [x0; x1; VDict [("itemListElement", VList items)]]).

(** A flattened entry has the four fields, in this order. *)
Definition four_fields (x : value) : Prop :=
  ∃ real_value id val label,
    x = VDict [("realValue", real_value); ("id", id); ("value", val); ("label", label)].

(** ** ASCII strings *)

(** A byte below 128 is an ASCII character. *)
Definition is_ascii (c : ascii) : bool := (nat_of_ascii c <? 128)%nat.

(** A string of ASCII characters only.  On such a string [lower] is
    [str.lower] and [is_digit] is the class [\d]. *)
Fixpoint ascii_only (s : string) : bool :=
  match s with
  | EmptyString => true
  | String c r => is_ascii c && ascii_only r
  end.

(** A URL that is not a string, or is a string of ASCII characters. *)
Definition ascii_url (url : value) : bool :=
  match url with
  | VStr s => ascii_only s
  | _ => true
  end.

(** ** Strings of digits *)

Fixpoint all_digits (s : string) : bool :=
  match s with
  | EmptyString => true
  | String c r => is_digit c && all_digits r
  end.

(** ** The first and third loops of [scrape_cars] *)

(** What [get_car_urls] returns for each page URL of a list in turn (with
    the default of three attempts), from the state [w] to the state
    [w']. *)
Inductive car_url_lists (self : scraper) (net : network) (expected_urls_per_page : Z)
    : list string → nat → list (list value) → nat → Prop :=
| car_url_lists_nil w : car_url_lists self net expected_urls_per_page [] w [] w
| car_url_lists_cons url page_urls w urls w1 lists w2 :
    get_car_urls self net (VStr url) expected_urls_per_page 3 w = (Ok urls, w1) →
    car_url_lists self net expected_urls_per_page page_urls w1 lists w2 →
    car_url_lists self net expected_urls_per_page (url :: page_urls) w (urls :: lists) w2.

(** An item that the third loop can read: an object with an [id], and
    with a [value] too when the [id] is one of [keys]. *)
Definition readable (item : value) : bool :=
  match item with
  | VDict d =>
      match dict_lookup "id" d with
      | Some (VStr k) =>
          if bool_decide (k ∈ keys) then bool_decide (is_Some (dict_lookup "value" d))
          else true
      | Some _ => true
      | None => false
      end
  | _ => false
  end.

(* ===================================================================== *)
(** * Properties *)
(* ===================================================================== *)

(** Runs the binds of [M] on the state at hand. *)
Ltac unfold_M := unfold mbind, M_mbind, M_bind, lift.

(** ** [_make_request] *)

Lemma make_request_unfold self net url retry_count w :
  _make_request self net url retry_count w =
  match try_request self net url retry_count w with
  | (Ok response, w') => (Ok response, w')
  | (Raise e, w') =>
      if caught_by [RequestException] e then
        if decide (retry_count < max_retries self)
        then _make_request self net url (retry_count + 1) w'
        else (Raise e, w')
      else (Raise e, w')
  end.
Proof.
  simp _make_request.
  destruct (try_request self net url retry_count w) as [[response|e] w']; simpl; [done|].
  destruct (exn_eqb e RequestException); simpl; [|done].
  destruct (Z_lt_dec _ _), (decide _); simpl; try done; lia.
Qed.

Lemma caught_by_RequestException e :
  caught_by [RequestException] e = true → e = RequestException.
Proof. by destruct e. Qed.

(** One run of the [try] block issues at most one request, and a page it
    gives is the answer to that request. *)
Lemma try_request_state self net url retry_count w :
  (w ≤ (try_request self net url retry_count w).2 ≤ S w)%nat.
Proof. unfold try_request. destruct (sleep _ _ _ _); simpl; lia. Qed.

Lemma try_request_Ok self net url retry_count w response w' :
  try_request self net url retry_count w = (Ok response, w') →
  net w url = Ok response ∧ w' = S w.
Proof.
  unfold try_request. destruct (sleep _ _ _ _); [done|]. by intros [= -> <-].
Qed.

Lemma try_request_slept self net url retry_count w :
  sleep net w (base_delay self) retry_count = None →
  try_request self net url retry_count w = (net w url, S w).
Proof. unfold try_request. by intros ->. Qed.

(** What a call does, for any [retry_count]: it runs the [try] block
    [i + 1] times for some [i] that is at most
    [max(0, max_retries - retry_count)]; all runs but the last raised a
    [RequestException]; its outcome is the outcome of the last run. *)
Lemma make_request_trace self net url (n : nat) :
  ∀ retry_count w, n = Z.to_nat (max_retries self - retry_count) →
  ∃ i : nat, (i ≤ n)%nat
    ∧ _make_request self net url retry_count w
      = try_request self net url (retry_count + Z.of_nat i)
          (try_state self net url i retry_count w)
    ∧ (∀ j, (j < i)%nat →
         (try_request self net url (retry_count + Z.of_nat j)
            (try_state self net url j retry_count w)).1 = Raise RequestException)
    ∧ (w ≤ try_state self net url i retry_count w ≤ w + i)%nat.
Proof.
  assert (Hzero : ∀ retry_count w,
    try_request self net url retry_count w
    = try_request self net url (retry_count + Z.of_nat 0)
        (try_state self net url 0 retry_count w)).
  { intros retry_count w. simpl. by rewrite Z.add_0_r. }
  assert (Hstop : ∀ retry_count w r w',
    try_request self net url retry_count w = (r, w') →
    ∃ i : nat, (i ≤ 0)%nat
      ∧ (r, w') = try_request self net url (retry_count + Z.of_nat i)
                    (try_state self net url i retry_count w)
      ∧ (∀ j, (j < i)%nat →
           (try_request self net url (retry_count + Z.of_nat j)
              (try_state self net url j retry_count w)).1 = Raise RequestException)
      ∧ (w ≤ try_state self net url i retry_count w ≤ w + i)%nat).
  { intros retry_count w r w' Htry. exists 0%nat. rewrite <-Hzero, Htry.
    split_and!; try done; try lia. simpl. lia. }
  induction n as [|n IH]; intros retry_count w Hn;
    rewrite make_request_unfold;
    destruct (try_request self net url retry_count w) as [[response|e] w1] eqn:Htry.
  - by apply Hstop.
  - destruct (caught_by _ e); [case_decide; [lia|]|]; by apply Hstop.
  - destruct (Hstop _ _ _ _ Htry) as (i & Hi & ?). exists i. split; [lia|done].
  - destruct (caught_by _ e) eqn:He;
      [|destruct (Hstop _ _ _ _ Htry) as (i & Hi & ?); exists i; split; [lia|done]].
    apply caught_by_RequestException in He as ->.
    case_decide; [|lia].
    destruct (IH (retry_count + 1) w1) as (i & Hi & -> & Hearlier & Hstate); [lia|].
    pose proof (try_request_state self net url retry_count w) as Hw1.
    rewrite Htry in Hw1. simpl in Hw1.
    exists (S i).
    assert (Hshift : ∀ k : nat,
      retry_count + Z.of_nat (S k) = retry_count + 1 + Z.of_nat k) by (intros; lia).
    assert (Hnext : ∀ k, try_state self net url (S k) retry_count w
                         = try_state self net url k (retry_count + 1) w1).
    { intros k. simpl. by rewrite Htry. }
    rewrite Hshift, Hnext.
    split_and!; try done; try lia.
    intros [|j] Hj.
    + change (try_state self net url 0 retry_count w) with w.
      change (Z.of_nat 0) with 0. by rewrite Z.add_0_r, Htry.
    + rewrite Hshift, Hnext. apply Hearlier. lia.
Qed.

(** What the callers need: the bounds on the requests of a call, and
    that a page it returns answered one of them. *)
Lemma make_request_spec self net url retry_count w :
  ∃ r w', _make_request self net url retry_count w = (r, w')
    ∧ (w ≤ w' ≤ w + Z.to_nat (max_retries self - retry_count) + 1)%nat
    ∧ (∀ response, r = Ok response → ∃ k, net k url = Ok response).
Proof.
  destruct (make_request_trace self net url _ retry_count w eq_refl)
    as (i & Hi & -> & _ & Hstate).
  pose proof (try_request_state self net url (retry_count + Z.of_nat i)
                (try_state self net url i retry_count w)) as Hlast.
  destruct (try_request _ _ _ _ _) as [r w'] eqn:Htry. simpl in Hlast.
  exists r, w'. split_and!; try done; try lia.
  intros response ->. apply try_request_Ok in Htry as [Hnet _]. eauto.
Qed.

(** C9.  [_make_request], called as the program calls it (with
    [retry_count = 0]) on a scraper whose [max_retries] is not negative,
    returns after [i + 1] runs of its [try] block for some
    [i ≤ max_retries], that is after at most [max_retries + 1] attempts, and
    so after at most that many requests.  Each run before the last raised a
    [RequestException], and the outcome of the call is the outcome of the
    last run: when that run fails too, its error is what the caller gets,
    and nothing more is tried. *)
Theorem make_request_terminates self net url w :
  0 ≤ max_retries self →
  ∃ i : nat,
    Z.of_nat i ≤ max_retries self
    ∧ _make_request self net url 0 w
      = try_request self net url (Z.of_nat i) (try_state self net url i 0 w)
    ∧ (∀ j, (j < i)%nat →
         (try_request self net url (Z.of_nat j) (try_state self net url j 0 w)).1
         = Raise RequestException)
    ∧ (w ≤ (_make_request self net url 0 w).2 ≤ w + i + 1)%nat.
Proof.
  intros Hmax.
  destruct (make_request_trace self net url _ 0 w eq_refl)
    as (i & Hi & Heq & Hearlier & Hstate).
  rewrite Z.add_0_l in Heq.
  exists i. split_and!; [lia|done| |rewrite Heq|rewrite Heq].
  - intros j Hj. specialize (Hearlier j Hj). by rewrite Z.add_0_l in Hearlier.
  - pose proof (try_request_state self net url (Z.of_nat i)
                  (try_state self net url i 0 w)). lia.
  - pose proof (try_request_state self net url (Z.of_nat i)
                  (try_state self net url i 0 w)). lia.
Qed.

Lemma make_request_terminates_witness :
  0 ≤ max_retries default_scraper
  ∧ ∃ i : nat,
      Z.of_nat i ≤ max_retries default_scraper
      ∧ _make_request default_scraper (failing_network RequestException) (VStr "u") 0 5%nat
        = try_request default_scraper (failing_network RequestException) (VStr "u")
            (Z.of_nat i)
            (try_state default_scraper (failing_network RequestException) (VStr "u") i 0 5%nat)
      ∧ (∀ j, (j < i)%nat →
           (try_request default_scraper (failing_network RequestException) (VStr "u")
              (Z.of_nat j)
              (try_state default_scraper (failing_network RequestException) (VStr "u")
                 j 0 5%nat)).1
           = Raise RequestException)
      ∧ (5 ≤ (_make_request default_scraper (failing_network RequestException)
                (VStr "u") 0 5%nat).2 ≤ 5 + i + 1)%nat.
Proof.
  split; [simpl; lia|].
  apply (make_request_terminates default_scraper
           (failing_network RequestException) (VStr "u") 5%nat).
  simpl; lia.
Defined.

(** With the defaults, a request that always fails is issued four times. *)
Example make_request_four_requests :
  _make_request default_scraper (failing_network RequestException) (VStr "u") 0 0%nat
  = (Raise RequestException, 4%nat).
Proof. reflexivity. Qed.

(** A negative [max_retries] still costs the first request. *)
Example make_request_negative_max_retries :
  _make_request {| max_retries := -1; base_delay := 2 |}
    (failing_network RequestException) (VStr "u") 0 0%nat
  = (Raise RequestException, 1%nat).
Proof. reflexivity. Qed.

(** With a negative [base_delay] the pause raises where [time.sleep]
    refuses a negative delay: the caller gets the [ValueError], and no
    request has been issued. *)
Example make_request_negative_base_delay :
  _make_request {| max_retries := 3; base_delay := -1 |}
    (strict_sleep_network (λ _ _, Raise RequestException)) (VStr "u") 0 0%nat
  = (Raise ValueError, 0%nat).
Proof. reflexivity. Qed.

(** ** [get_car_urls] *)

Lemma get_car_urls_loop_unfold self net page_url expected_urls max_retries
    retry_count best_result w :
  get_car_urls_loop self net page_url expected_urls max_retries retry_count best_result w =
  if decide (retry_count < max_retries) then
    match fetch_car_urls self net page_url w with
    | (Ok result_urls, w') =>
        if len result_urls >=? expected_urls then (Ok result_urls, w')
        else get_car_urls_loop self net page_url expected_urls max_retries
               (retry_count + 1)
               (if len result_urls >? len best_result then result_urls else best_result)
               w'
    | (Raise e, w') =>
        get_car_urls_loop self net page_url expected_urls max_retries
          (retry_count + 1) best_result w'
    end
  else (Ok best_result, w).
Proof.
  simp get_car_urls_loop.
  destruct (Z_lt_dec _ _), (decide _); simpl; try done; try lia.
  destruct (fetch_car_urls _ _ _ _) as [[r|e] w']; simpl.
  - destruct (len r >=? _); simpl; [done|]. by simp get_car_urls_loop.
  - by simp get_car_urls_loop.
Qed.

Lemma state_after_cons w o trace : state_after w (o :: trace) = state_after o.2 trace.
Proof.
  unfold state_after. destruct trace as [|o' trace]; [done|].
  rewrite last_cons_cons. destruct (last (o' :: trace)) eqn:Hlast; [done|].
  rewrite last_cons in Hlast. by destruct (last trace).
Qed.

Section get_car_urls.
Context (self : scraper) (net : network) (page_url : value).
Context (expected_urls max_retries : Z).

Local Abbreviation loop := (get_car_urls_loop self net page_url expected_urls max_retries).
Local Abbreviation trace_from := (attempts self net page_url).

(** The loop entered with [retry_count] and [best_result], against the
    trace of the attempts that are left. *)
Lemma get_car_urls_loop_spec (n : nat) :
  ∀ retry_count best_result w, n = Z.to_nat (max_retries - retry_count) →
  match list_find (reaches expected_urls) (trace_from n w) with
  | Some (_, o) => loop retry_count best_result w = o
  | None =>
      ∃ best, loop retry_count best_result w = (Ok best, state_after w (trace_from n w))
        ∧ (length best_result ≤ length best)%nat
        ∧ (∀ r w', (Ok r, w') ∈ trace_from n w → (length r ≤ length best)%nat)
        ∧ (best = best_result ∨ ∃ w', (Ok best, w') ∈ trace_from n w)
  end.
Proof.
  induction n as [|n IH]; intros retry_count best_result w Hn;
    rewrite get_car_urls_loop_unfold; simpl.
  { destruct (decide (retry_count < max_retries)); [lia|]. exists best_result.
    split_and!; [done|done| |by left]. intros r w' []%elem_of_nil. }
  destruct (decide (retry_count < max_retries)); [|lia].
  destruct (fetch_car_urls self net page_url w) as [[r|e] w1] eqn:Hfetch; simpl.
  - destruct (decide (reaches expected_urls (Ok r, w1))) as [Hreach|Hreach];
      unfold reaches in Hreach; simpl in Hreach.
    + destruct (Z.geb_spec (len r) expected_urls); [done|lia].
    + destruct (Z.geb_spec (len r) expected_urls); [lia|].
      specialize (IH (retry_count + 1)
                     (if len r >? len best_result then r else best_result) w1).
      destruct (list_find _ (trace_from n w1)) as [[i o]|]; simpl; [apply IH; lia|].
      destruct IH as (best & -> & Hlen & Hmax & Hfrom); [lia|].
      rewrite state_after_cons. exists best. unfold len in *.
      destruct (Z.gtb_spec (Z.of_nat (length r)) (Z.of_nat (length best_result))).
      * split_and!; [done|lia| |].
        -- intros r' w' [[= -> ->]|Hin]%elem_of_cons; [done|by eapply Hmax].
        -- destruct Hfrom as [->|[w' Hin]]; right;
             [exists w1; by left | exists w'; by right].
      * split_and!; [done|done| |].
        -- intros r' w' [[= -> ->]|Hin]%elem_of_cons; [lia|by eapply Hmax].
        -- destruct Hfrom as [->|[w' Hin]]; [by left|right; exists w'; by right].
  - destruct (decide (reaches expected_urls (Raise e, w1))) as [[]|_].
    specialize (IH (retry_count + 1) best_result w1).
    destruct (list_find _ (trace_from n w1)) as [[i o]|]; simpl; [apply IH; lia|].
    destruct IH as (best & -> & Hlen & Hmax & Hfrom); [lia|].
    rewrite state_after_cons. exists best.
    split_and!; [done|done| |].
    + intros r' w' [[=]|Hin]%elem_of_cons. by eapply Hmax.
    + destruct Hfrom as [->|[w' Hin]]; [by left|right; exists w'; by right].
Qed.

(** C1.  Let the trace be what [max_retries] consecutive attempts would
    give.  If some attempt of the trace has a URL set of at least
    [expected_urls] members, [get_car_urls] returns the set of the first
    such attempt, in the state that attempt left (so nothing is fetched
    after it).  Otherwise it returns, in the state the last attempt left,
    a list [best] that no set of the trace exceeds in length and that is
    one of the sets of the trace, or is empty: the largest set observed,
    whatever the order in which the sizes came. *)
Theorem get_car_urls_returns w :
  let trace := trace_from (Z.to_nat max_retries) w in
  match list_find (reaches expected_urls) trace with
  | Some (_, o) =>
      get_car_urls self net page_url expected_urls max_retries w = o
  | None =>
      ∃ best,
        get_car_urls self net page_url expected_urls max_retries w
          = (Ok best, state_after w trace)
        ∧ (∀ r w', (Ok r, w') ∈ trace → (length r ≤ length best)%nat)
        ∧ (best = [] ∨ ∃ w', (Ok best, w') ∈ trace)
  end.
Proof.
  intros trace. unfold get_car_urls, trace.
  pose proof (get_car_urls_loop_spec (Z.to_nat max_retries) 0 [] w) as Hspec.
  destruct (list_find _ _) as [[i o]|]; [apply Hspec; f_equal; lia|].
  destruct Hspec as (best & ? & _ & ? & ?); [f_equal; lia|]. by exists best.
Qed.

(** An attempt fails when every request does. *)
Lemma fetch_car_urls_fails w :
  (∀ n, is_ok (net n page_url) = false) →
  is_ok (fetch_car_urls self net page_url w).1 = false.
Proof.
  intros Hnet. unfold fetch_car_urls. unfold_M.
  destruct (make_request_spec self net page_url 0 w) as (r & w' & -> & _ & Hpage).
  destruct r as [response|e]; [|done].
  destruct (Hpage response eq_refl) as [k Hk].
  specialize (Hnet k). by rewrite Hk in Hnet.
Qed.

Lemma attempts_length n w : length (trace_from n w) = n.
Proof. revert w. induction n as [|n IH]; intros w; simpl; [done|]. by rewrite IH. Qed.

Lemma attempts_fail n w :
  (∀ n, is_ok (net n page_url) = false) →
  Forall (λ o, is_ok o.1 = false) (trace_from n w).
Proof.
  intros Hnet. revert w. induction n as [|n IH]; intros w; simpl; [done|].
  constructor; [by apply fetch_car_urls_fails|apply IH].
Qed.

(** C7.  When every request for [page_url] fails, [get_car_urls] returns
    (it does not raise) the empty list, in the state that [max_retries]
    attempts leave, each of these attempts having raised. *)
Theorem get_car_urls_fetch_fails w :
  (∀ n, is_ok (net n page_url) = false) →
  let trace := trace_from (Z.to_nat max_retries) w in
  get_car_urls self net page_url expected_urls max_retries w
    = (Ok [], state_after w trace)
  ∧ length trace = Z.to_nat max_retries
  ∧ Forall (λ o, is_ok o.1 = false) trace.
Proof.
  intros Hnet trace.
  split_and!; [|apply attempts_length|by apply attempts_fail].
  pose proof (get_car_urls_loop_spec (Z.to_nat max_retries) 0 [] w) as Hret.
  fold trace in Hret.
  pose proof (attempts_fail (Z.to_nat max_retries) w Hnet) as Hfail. fold trace in Hfail.
  rewrite Forall_forall in Hfail. unfold get_car_urls.
  destruct (list_find _ trace) as [[i o]|] eqn:Hfind.
  - apply list_find_Some in Hfind as (Hi%list_elem_of_lookup_2 & Hreach & _).
    specialize (Hfail _ Hi). unfold reaches in Hreach. by destruct o.1.
  - destruct Hret as (best & -> & _ & _ & [->|[w' Hin]]); [f_equal; lia|done|].
    by specialize (Hfail _ Hin).
Qed.
End get_car_urls.

(** A later attempt that finds less does not replace an earlier one. *)
Example get_car_urls_keeps_best :
  get_car_urls default_scraper
    (plain_network
       (λ n _, Ok (page_with_cards
                     match n with
                     | O => ["/cars/a-1.htm"]
                     | 1%nat => ["/cars/a-1.htm"; "/cars/b-2.htm"]
                     | _ => []
                     end)))
    (VStr "https://www.mudah.my/malaysia/cars-for-sale?o=1") 40 3 0%nat
  = (Ok [VStr "https://www.mudah.my/cars/a-1.htm"; VStr "https://www.mudah.my/cars/b-2.htm"],
     3%nat).
Proof. reflexivity. Qed.

(** An attempt that reaches the expected number ends the call: one request. *)
Example get_car_urls_returns_at_once :
  get_car_urls default_scraper
    (constant_network (page_with_cards ["/cars/a-1.htm"; "/cars/b-2.htm"]))
    (VStr "https://www.mudah.my/malaysia/cars-for-sale?o=1") 2 3 0%nat
  = (Ok [VStr "https://www.mudah.my/cars/a-1.htm"; VStr "https://www.mudah.my/cars/b-2.htm"],
     1%nat).
Proof. reflexivity. Qed.

Lemma get_car_urls_fetch_fails_witness :
  (∀ n, is_ok (failing_network RequestException n (VStr "u")) = false)
  ∧ let trace := attempts default_scraper (failing_network RequestException) (VStr "u")
                   (Z.to_nat 3) 0%nat in
    get_car_urls default_scraper (failing_network RequestException) (VStr "u") 40 3 0%nat
      = (Ok [], state_after 0%nat trace)
    ∧ length trace = Z.to_nat 3
    ∧ Forall (λ o, is_ok o.1 = false) trace.
Proof.
  split; [done|].
  apply (get_car_urls_fetch_fails default_scraper
           (failing_network RequestException) (VStr "u") 40 3 0%nat).
  done.
Defined.

(** With the defaults, three attempts of four requests each; an exception
    that [_make_request] does not handle costs one request an attempt. *)
Example get_car_urls_fetch_fails_twelve_requests :
  get_car_urls default_scraper (failing_network RequestException) (VStr "u") 40 3 0%nat
  = (Ok [], 12%nat).
Proof. reflexivity. Qed.

Example get_car_urls_fetch_fails_three_requests :
  get_car_urls default_scraper (failing_network OtherException) (VStr "u") 40 3 0%nat
  = (Ok [], 3%nat).
Proof. reflexivity. Qed.

(** ** The URLs that [get_car_urls] returns *)

Lemma re_search_anchored anchored s : anchored s = true → re_search anchored s = true.
Proof. intros H. destruct s; simpl; by rewrite H. Qed.

Lemma re_search_tail anchored c s :
  re_search anchored s = true → re_search anchored (String c s) = true.
Proof. intros H. simpl. rewrite H. apply orb_true_r. Qed.

Lemma re_search_drop_prefix anchored n :
  ∀ s, re_search anchored (drop_prefix n s) = true → re_search anchored s = true.
Proof.
  induction n as [|n IH]; intros [|c s] H; try done.
  apply re_search_tail, IH, H.
Qed.

Lemma re_search_app anchored p s :
  re_search anchored s = true → re_search anchored (p +:+ s) = true.
Proof. intros H. induction p as [|c p IH]; [done|]. by apply re_search_tail. Qed.

(** A link that the pattern with [/cars/] finds, the pattern without finds
    too. *)
Lemma re_cars_html_re_html s : re_cars_html s = true → re_html s = true.
Proof.
  unfold re_cars_html, re_html. induction s as [|c s IH]; [done|].
  intros H.
  change (match_cars_htm (String c s) || re_search match_cars_htm s = true) in H.
  apply orb_true_iff in H as [Hhere|Hlater].
  - apply andb_true_iff in Hhere as [_ Hdot].
    by apply (re_search_drop_prefix _ 6 (String c s)), re_search_anchored.
  - by apply re_search_tail, IH.
Qed.

Lemma element_url_shape el url :
  element_url el = Some url →
  startswith url "http" = true ∧ re_html url = true.
Proof.
  unfold element_url, find_a. intros Hurl.
  assert (∃ href, re_html href = true
            ∧ url = if negb (startswith href "http")
                    then "https://www.mudah.my" +:+ href else href)
    as (href & Hre & ->).
  { destruct (find re_cars_html el) as [href|] eqn:Hcars.
    - apply find_some in Hcars as [_ Hre]. exists href.
      split; [by apply re_cars_html_re_html|congruence].
    - destruct (find re_html el) as [href|] eqn:Hhtml; [|done].
      apply find_some in Hhtml as [_ Hre]. exists href. split; [done|congruence]. }
  destruct (startswith href "http") eqn:Hhttp; simpl; [done|].
  split; [done|]. by apply re_search_app.
Qed.

Lemma elem_of_set_insert (car_urls : list value) x u :
  u ∈ set_insert car_urls x → u ∈ car_urls ∨ u = x.
Proof.
  unfold set_insert. destruct (existsb _ _); [by left|].
  intros [?|?%list_elem_of_singleton]%elem_of_app; auto.
Qed.

(** Method 2 (the listing elements of the HTML) puts the origin of the
    site in front of a link that does not begin with [http]: whatever it
    adds to the set is a string that begins with [http] and in which the
    pattern [.+\.html?] matches. *)
Lemma method2_urls (sp : soup) (car_urls : list value) (u : value) :
  u ∈ method2 sp car_urls →
  u ∈ car_urls
  ∨ ∃ url, u = VStr url ∧ startswith url "http" = true ∧ re_html url = true.
Proof.
  unfold method2. generalize (listing_elements sp) as elements.
  intros elements. revert car_urls.
  induction elements as [|el elements IH]; intros car_urls; simpl; [by left|].
  intros [Hin|Hnew]%IH; [|by right].
  destruct (element_url el) as [url|] eqn:Hurl; [|by left].
  apply elem_of_set_insert in Hin as [?| ->]; [by left|].
  right. exists url. split; [done|]. by apply (element_url_shape el).
Qed.

(** C6.  The code at an input on which the claim fails.  The path
    [/toyota-vios-104522.htm] found as the URL of an item of the
    structured data (Method 1) is returned as it stands, without scheme or
    host, and so is not an absolute URL; the same path found as the link
    of a listing element (Method 2) is returned with the origin of the
    site in front of it.  Methods 1 and 3 lack the step that Method 2
    takes. *)
Theorem get_car_urls_relative_url :
  get_car_urls default_scraper
    (constant_network
       (page_with_ld_json
          (VList [VDict []; VDict [];
                  VDict [("itemListElement",
                          VList [VDict [("item",
                                         VDict [("url", VStr "/toyota-vios-104522.htm")])]])]])))
    (VStr "https://www.mudah.my/malaysia/cars-for-sale?o=1") 1 3 0%nat
  = (Ok [VStr "/toyota-vios-104522.htm"], 1%nat)
  ∧ absolute_html_url (VStr "/toyota-vios-104522.htm") = false
  ∧ get_car_urls default_scraper
      (constant_network (page_with_cards ["/toyota-vios-104522.htm"]))
      (VStr "https://www.mudah.my/malaysia/cars-for-sale?o=1") 1 3 0%nat
    = (Ok [VStr "https://www.mudah.my/toyota-vios-104522.htm"], 1%nat)
  ∧ absolute_html_url (VStr "https://www.mudah.my/toyota-vios-104522.htm") = true.
Proof. split_and!; reflexivity. Qed.

(** Method 3 (the embedded state) returns a path as it stands too. *)
Example get_car_urls_relative_url_next_data :
  get_car_urls default_scraper
    (constant_network
       (page_with_state
          (VDict [("props",
                   VDict [("pageProps",
                           VDict [("items",
                                   VList [VDict [("url",
                                                  VStr "/toyota-vios-104522.htm")]])])])])))
    (VStr "https://www.mudah.my/malaysia/cars-for-sale?o=1") 1 3 0%nat
  = (Ok [VStr "/toyota-vios-104522.htm"], 1%nat).
Proof. reflexivity. Qed.

(** Method 2 itself keeps a link with a query string after [.html], and a
    link that merely begins with the letters [http]. *)
Example element_url_query_string :
  element_url ["/cars/a-1.html?ref=home"] = Some "https://www.mudah.my/cars/a-1.html?ref=home"
  ∧ absolute_html_url (VStr "https://www.mudah.my/cars/a-1.html?ref=home") = false.
Proof. split; reflexivity. Qed.

Example element_url_http_prefix :
  element_url ["httpd/manual.htm"] = Some "httpd/manual.htm"
  ∧ absolute_html_url (VStr "httpd/manual.htm") = false.
Proof. split; reflexivity. Qed.

(** ** [get_car_info] *)

Lemma result_bind_Ok {A B} (f : A → result B) (r : result A) b :
  (r ≫= f) = Ok b → ∃ a, r = Ok a ∧ f a = Ok b.
Proof. destruct r as [a|e]; [by exists a|done]. Qed.









(** Nor does a payload do whose [categoryParams] is not a list, or which is
    not an object. *)
Example get_car_info_category_params_object :
  get_car_info default_scraper
    (constant_network
       (page_with_state (ad_payload "104522" (VDict [("categoryParams", VDict [])]))))
    (VStr "https://www.mudah.my/toyota-vios-104522.htm") 0%nat
  = (Ok None, 1%nat).
Proof. reflexivity. Qed.

Example get_car_info_payload_list :
  get_car_info default_scraper (constant_network (page_with_state (VList [])))
    (VStr "https://www.mudah.my/toyota-vios-104522.htm") 0%nat
  = (Ok None, 1%nat).
Proof. reflexivity. Qed.



(** The same holds when the payload has no state at all. *)
Example get_car_info_empty_payload :
  get_car_info default_scraper (constant_network (page_with_state (VDict [])))
    (VStr "https://www.mudah.my/toyota-vios-104522.htm") 0%nat
  = (Ok (Some [ads_id_entry "104522"]), 1%nat).
Proof. reflexivity. Qed.

(** ** [scrape_cars]: collecting the results of [get_car_info] *)

Lemma add_lists_nonempty car_attrs entry mcd_params car_dets :
  add_lists car_attrs [entry] mcd_params = Ok car_dets → car_dets ≠ [].
Proof.
  destruct car_attrs as [| | | |l|]; try done. intros [= <-].
  by destruct l.
Qed.

(** What [get_car_info] builds always holds the entry for [ads_id]. *)
Lemma car_dets_of_nonempty loaded url car_dets :
  car_dets_of loaded url = Ok car_dets → car_dets ≠ [].
Proof.
  unfold car_dets_of. intros H.
  repeat (apply result_bind_Ok in H as (? & _ & H)).
  by eapply add_lists_nonempty.
Qed.

(** [get_car_info] does not raise, and a list it returns is not empty. *)
Lemma get_car_info_total self net url w :
  ∃ result w', get_car_info self net url w = (Ok result, w') ∧ result ≠ Some [].
Proof.
  unfold get_car_info, try_except_Exception. unfold_M.
  destruct (_make_request self net url 0 w) as [[page|e] w1]; [|by eexists _, _].
  destruct (script_tag page) as [loaded|]; [|by eexists _, _].
  destruct (car_dets_of loaded url) as [car_dets|e] eqn:Hdets; [|by eexists _, _].
  eexists _, _. split; [done|]. intros [= ->]. by eapply car_dets_of_nonempty.
Qed.

Lemma collect_car_data_spec self net car_urls :
  ∀ car_data w,
  ∃ results w', car_infos self net car_urls w results w'
    ∧ collect_car_data self net car_urls car_data w
      = (Ok (car_data ++ omap id results), w').
Proof.
  induction car_urls as [|url car_urls IH]; intros car_data w.
  - exists [], w. split; [constructor|]. simpl. by rewrite app_nil_r.
  - destruct (get_car_info_total self net url w) as (result & w1 & Hinfo & Hne).
    simpl. unfold_M. rewrite Hinfo.
    destruct result as [[|item car_dets]|]; [done| |].
    + simpl. destruct (IH (car_data ++ [item :: car_dets]) w1) as (results & w' & Hinfos & ->).
      exists (Some (item :: car_dets) :: results), w'.
      split; [by econstructor|]. simpl. by rewrite <-app_assoc.
    + destruct (IH car_data w1) as (results & w' & Hinfos & ->).
      exists (None :: results), w'. split; [by econstructor|done].
Qed.

(** C8.  The second loop of [scrape_cars] ends with [car_data] equal to the
    results of [get_car_info] that are not [None], in the order of the
    URLs: each such result is kept and each [None] is left out.  (The test
    [if result] would also leave out an empty list; [get_car_info] never
    returns one.) *)
Theorem collect_car_data_collects self net car_urls w :
  ∃ results w', car_infos self net car_urls w results w'
    ∧ collect_car_data self net car_urls [] w = (Ok (omap id results), w').
Proof. apply collect_car_data_spec. Qed.

(** ** [scrape_cars]: the record of a car *)

Lemma fill_car_dict_app l1 l2 car_dict :
  fill_car_dict (l1 ++ l2) car_dict = fill_car_dict l1 car_dict ≫= fill_car_dict l2.
Proof.
  revert car_dict. induction l1 as [|item l1 IH]; intros car_dict; simpl; [done|].
  destruct (set_item car_dict item); simpl; [apply IH|done].
Qed.

(** The record filled from attributes: it has a value at [k] only for a
    [k] of [keys], the value of the last attribute whose [id] is [k]. *)
Lemma fill_car_dict_lookup car_attrs :
  Forall raw_attribute car_attrs →
  ∃ car_dict, fill_car_dict car_attrs ∅ = Ok car_dict
    ∧ ∀ k, car_dict !! k
           = if decide (k ∈ keys)
             then last (filter (has_id k) car_attrs) ≫= value_of
             else None.
Proof.
  induction car_attrs as [|item car_attrs IH] using rev_ind; intros Hraw.
  { exists ∅. split; [done|]. intros k. rewrite lookup_empty. by case_decide. }
  apply Forall_app in Hraw as [Hraw Hitem%Forall_inv].
  destruct (IH Hraw) as (car_dict & Hfill & Hlookup).
  rewrite fill_car_dict_app, Hfill. simpl.
  destruct item as [| | | | |d]; try done. simpl in Hitem.
  apply andb_True in Hitem as [[id Hid]%bool_decide_unpack [v Hv]%bool_decide_unpack].
  assert (∀ k, has_id k (VDict d) ↔ id = VStr k) as Hhas.
  { intros k. unfold has_id. simpl. rewrite Hid. split; congruence. }
  assert (∀ k, filter (has_id k) (car_attrs ++ [VDict d])
               = filter (has_id k) car_attrs
                 ++ (if decide (has_id k (VDict d)) then [VDict d] else [])) as Hfilter.
  { intros k. by rewrite filter_app, filter_cons, filter_nil. }
  unfold set_item. simpl. rewrite Hid. simpl.
  assert ((∃ k', id = VStr k' ∧ k' ∈ keys)
          ∨ ∀ k, k ∈ keys → id ≠ VStr k) as [(k' & -> & Hk')|Hnot].
  { destruct id as [| | |k'| |]; try (right; congruence).
    destruct (decide (k' ∈ keys)); [left; by exists k'|right; congruence]. }
  - rewrite bool_decide_eq_true_2 by done. simpl. rewrite Hv. simpl.
    eexists. split; [done|]. intros k. rewrite Hfilter.
    destruct (decide (k = k')) as [->|Hne].
    + rewrite lookup_insert_eq, decide_True by done.
      rewrite decide_True by by apply Hhas. rewrite last_snoc. simpl.
      unfold value_of. simpl. by rewrite Hv.
    + rewrite lookup_insert_ne by done. rewrite Hlookup.
      rewrite (decide_False (P := has_id k _)); [by rewrite app_nil_r|].
      intros [=]%Hhas. congruence.
  - exists car_dict. split.
    + destruct id as [| | |k'| |]; try done.
      case_bool_decide as Hk'; [|done]. by destruct (Hnot k' Hk').
    + intros k. rewrite Hlookup, Hfilter. case_decide as Hk; [|done].
      rewrite decide_False; [by rewrite app_nil_r|].
      intros ?%Hhas. by apply (Hnot k).
Qed.

(** C2.  For attributes that each have an [id] and a [value], and a [k] of
    [keys] that is the [id] of at least one of them: the record has at [k]
    the value of the last attribute whose [id] is [k]. *)
Theorem fill_car_dict_last_wins car_attrs k item :
  Forall raw_attribute car_attrs →
  k ∈ keys →
  last (filter (has_id k) car_attrs) = Some item →
  ∃ car_dict v, fill_car_dict car_attrs ∅ = Ok car_dict
    ∧ getitem_str item "value" = Ok v
    ∧ car_dict !! k = Some v.
Proof.
  intros Hraw Hk Hlast.
  destruct (fill_car_dict_lookup car_attrs Hraw) as (car_dict & Hfill & Hlookup).
  specialize (Hlookup k). rewrite decide_True, Hlast in Hlookup by done.
  assert (raw_attribute item) as Hitem.
  { apply last_Some_elem_of, list_elem_of_filter in Hlast as [_ Hin].
    rewrite Forall_forall in Hraw. by apply Hraw. }
  destruct item as [| | | | |d]; try done. simpl in Hitem.
  apply andb_True in Hitem as [_ [v Hv]%bool_decide_unpack].
  exists car_dict, v. simpl in *. unfold value_of in Hlookup. simpl in Hlookup.
  rewrite Hv in *. done.
Qed.

Lemma fill_car_dict_last_wins_witness :
  let car_attrs := [attribute "price" "RM 1"; attribute "colour" "red";
                    attribute "price" "RM 2"] in
  (Forall raw_attribute car_attrs
   ∧ "price" ∈ keys
   ∧ last (filter (has_id "price") car_attrs) = Some (attribute "price" "RM 2"))
  ∧ ∃ car_dict v, fill_car_dict car_attrs ∅ = Ok car_dict
      ∧ getitem_str (attribute "price" "RM 2") "value" = Ok v
      ∧ car_dict !! "price" = Some v.
Proof.
  intros car_attrs.
  assert (Forall raw_attribute car_attrs) as Hraw by (repeat constructor).
  assert ("price" ∈ keys) as Hk by (unfold keys; left).
  split; [by split_and!|].
  exact (fill_car_dict_last_wins car_attrs "price" (attribute "price" "RM 2")
           Hraw Hk eq_refl).
Defined.

(** C3.  For attributes that each have an [id] and a [value], the record
    has no key outside [keys]: an attribute whose [id] is not in [keys]
    leaves no trace. *)
Theorem fill_car_dict_keys car_attrs :
  Forall raw_attribute car_attrs →
  ∃ car_dict, fill_car_dict car_attrs ∅ = Ok car_dict
    ∧ ∀ k, k ∈ dom car_dict → k ∈ keys.
Proof.
  intros Hraw.
  destruct (fill_car_dict_lookup car_attrs Hraw) as (car_dict & Hfill & Hlookup).
  exists car_dict. split; [done|].
  intros k [v Hv]%elem_of_dom. rewrite Hlookup in Hv. by case_decide.
Qed.

Lemma fill_car_dict_keys_witness :
  let car_attrs := [attribute "price" "RM 1"; attribute "colour" "red"] in
  Forall raw_attribute car_attrs
  ∧ ∃ car_dict, fill_car_dict car_attrs ∅ = Ok car_dict
      ∧ ∀ k, k ∈ dom car_dict → k ∈ keys.
Proof.
  intros car_attrs.
  assert (Forall raw_attribute car_attrs) as Hraw by (repeat constructor).
  split; [exact Hraw|].
  exact (fill_car_dict_keys car_attrs Hraw).
Defined.

(** An attribute without [id] makes the loop raise. *)
Example fill_car_dict_no_id :
  fill_car_dict [VDict [("value", VStr "red")]] ∅ = Raise KeyError.
Proof. reflexivity. Qed.

(** Two pages of two listings give four records, each with [price],
    [make] and [ads_id], after six requests. *)
Example scrape_cars_two_pages :
  scrape_cars default_scraper two_page_site "" "" 1 2 2 0%nat
  = (Ok [two_page_site_record "1"; two_page_site_record "2";
         two_page_site_record "3"; two_page_site_record "4"], 6%nat).
Proof. vm_compute. reflexivity. Qed.

(** ** [get_page_urls] *)

Lemma range_length start stop :
  length (range start stop) = Z.to_nat (stop - start).
Proof. unfold range. by rewrite length_fmap, length_seq. Qed.

Example get_page_urls_2_4 :
  get_page_urls "" "" 2 4 =
  [ "https://www.mudah.my/malaysia/cars-for-sale?o=2";
    "https://www.mudah.my/malaysia/cars-for-sale?o=3";
    "https://www.mudah.my/malaysia/cars-for-sale?o=4" ].
Proof. reflexivity. Qed.

Example get_page_urls_selangor_toyota :
  get_page_urls "Selangor" "toyota" 1 1 =
  [ "https://www.mudah.my/selangor/cars-for-sale/toyota?o=1" ].
Proof. reflexivity. Qed.

(** C10.  [get_page_urls] is a total function, and for all strings [state],
    [brand] and all integers [start], [end] it returns exactly
    [max(0, end - start + 1)] URLs; when [start > end] the result is the
    empty list. *)
Theorem get_page_urls_length (state brand : string) (start end_ : Z) :
  Z.of_nat (length (get_page_urls state brand start end_))
    = Z.max 0 (end_ - start + 1)
  ∧ (if end_ <? start then get_page_urls state brand start end_ = [] else True).
Proof.
  unfold get_page_urls. rewrite length_fmap, range_length. split; [lia|].
  destruct (Z.ltb_spec end_ start) as [Hlt|_]; [|done].
  unfold range. by replace (Z.to_nat (end_ + 1 - start)) with 0%nat by lia.
Qed.

(* ===================================================================== *)
(** * Further properties *)
(* ===================================================================== *)

(** ** [_make_request]: which request decides *)

(** While the pauses go through and the requests raise a
    [RequestException], a call with retries left goes on to the next
    one. *)
Lemma make_request_retries self net url (k : nat) :
  ∀ retry_count w,
  (k ≤ Z.to_nat (max_retries self - retry_count))%nat →
  (∀ j, (j < k)%nat →
        sleep net (w + j)%nat (base_delay self) (retry_count + Z.of_nat j) = None) →
  (∀ j, (j < k)%nat → net (w + j)%nat url = Raise RequestException) →
  _make_request self net url retry_count w
  = _make_request self net url (retry_count + Z.of_nat k) (w + k)%nat.
Proof.
  induction k as [|k IH]; intros retry_count w Hk Hsleep Hnet.
  { by rewrite Z.add_0_r, Nat.add_0_r. }
  rewrite make_request_unfold.
  pose proof (Hsleep 0%nat ltac:(lia)) as Hsleep0.
  pose proof (Hnet 0%nat ltac:(lia)) as Hnet0.
  rewrite Z.add_0_r, Nat.add_0_r in Hsleep0. rewrite Nat.add_0_r in Hnet0.
  rewrite try_request_slept, Hnet0 by done.
  change (caught_by [RequestException] RequestException) with true. cbv iota.
  rewrite decide_True by lia.
  rewrite (IH (retry_count + 1) (S w)).
  - f_equal; lia.
  - lia.
  - intros j Hj. specialize (Hsleep (S j) ltac:(lia)).
    by replace (S w + j)%nat with (w + S j)%nat by lia;
       replace (retry_count + 1 + Z.of_nat j) with (retry_count + Z.of_nat (S j)) by lia.
  - intros j Hj. specialize (Hnet (S j) ltac:(lia)).
    by replace (S w + j)%nat with (w + S j)%nat by lia.
Qed.

(** X1.  [_make_request] stops at the first request whose outcome is not a
    [RequestException], provided it comes within the retries that are left
    and no pause raises: when the pauses before the requests [w], ...,
    [w + k] go through, the requests [w], ..., [w + k - 1] raise a
    [RequestException], the request [w + k] does not, and [k] is at most
    [max_retries - retry_count], the call returns the outcome of the
    request [w + k] (a page, or another exception) after [k + 1]
    requests. *)
Theorem make_request_first_other_outcome self net url retry_count w (k : nat) :
  (k ≤ Z.to_nat (max_retries self - retry_count))%nat →
  (∀ j, (j ≤ k)%nat →
        sleep net (w + j)%nat (base_delay self) (retry_count + Z.of_nat j) = None) →
  (∀ j, (j < k)%nat → net (w + j)%nat url = Raise RequestException) →
  net (w + k)%nat url ≠ Raise RequestException →
  _make_request self net url retry_count w = (net (w + k)%nat url, S (w + k)).
Proof.
  intros Hk Hsleep Hbefore Hat.
  rewrite (make_request_retries self net url k) by (try done; intros; apply Hsleep; lia).
  rewrite make_request_unfold, try_request_slept by (apply Hsleep; lia).
  destruct (net (w + k)%nat url) as [response|e]; [done|].
  destruct (caught_by _ e) eqn:He; [|done].
  by apply caught_by_RequestException in He as ->.
Qed.

Lemma make_request_first_other_outcome_witness :
  let net : network := plain_network (λ n _,
    match n with
    | 2%nat => Ok (page_with_cards [])
    | _ => Raise RequestException
    end) in
  ((2 ≤ Z.to_nat (max_retries default_scraper - 0))%nat
   ∧ (∀ j, (j ≤ 2)%nat →
        sleep net (0 + j)%nat (base_delay default_scraper) (0 + Z.of_nat j) = None)
   ∧ (∀ j, (j < 2)%nat → net (0 + j)%nat (VStr "u") = Raise RequestException)
   ∧ net (0 + 2)%nat (VStr "u") ≠ Raise RequestException)
  ∧ _make_request default_scraper net (VStr "u") 0 0%nat
    = (net (0 + 2)%nat (VStr "u"), 3%nat).
Proof.
  intros net.
  assert (2 ≤ Z.to_nat (max_retries default_scraper - 0))%nat as H1 by (simpl; lia).
  assert (∀ j, (j ≤ 2)%nat →
            sleep net (0 + j)%nat (base_delay default_scraper) (0 + Z.of_nat j) = None)
    as H0 by done.
  assert (∀ j, (j < 2)%nat → net (0 + j)%nat (VStr "u") = Raise RequestException) as H2.
  { intros [|[|j]] Hj; [done|done|lia]. }
  assert (net (0 + 2)%nat (VStr "u") ≠ Raise RequestException) as H3 by done.
  split; [done|].
  exact (make_request_first_other_outcome default_scraper net (VStr "u") 0 0%nat 2
           H1 H0 H2 H3).
Defined.

(** X2.  When no pause raises and the first request and each of the
    [max(0, max_retries - retry_count)] retries raise a [RequestException],
    [_make_request] raises a [RequestException] after exactly that many
    requests plus one. *)
Theorem make_request_exhausts_retries self net url retry_count w :
  (∀ j, (j ≤ Z.to_nat (max_retries self - retry_count))%nat →
        sleep net (w + j)%nat (base_delay self) (retry_count + Z.of_nat j) = None) →
  (∀ j, (j ≤ Z.to_nat (max_retries self - retry_count))%nat →
        net (w + j)%nat url = Raise RequestException) →
  _make_request self net url retry_count w
  = (Raise RequestException, (w + Z.to_nat (max_retries self - retry_count) + 1)%nat).
Proof.
  intros Hsleep Hall.
  rewrite (make_request_retries self net url (Z.to_nat (max_retries self - retry_count)));
    [|lia|intros; apply Hsleep; lia|intros; apply Hall; lia].
  rewrite make_request_unfold, try_request_slept, Hall by (try apply Hsleep; lia).
  change (caught_by [RequestException] RequestException) with true. cbv iota.
  rewrite decide_False by lia. f_equal. lia.
Qed.

Lemma make_request_exhausts_retries_witness :
  ((∀ j, (j ≤ Z.to_nat (max_retries default_scraper - 1))%nat →
         sleep (failing_network RequestException) (7 + j)%nat
           (base_delay default_scraper) (1 + Z.of_nat j) = None)
   ∧ (∀ j, (j ≤ Z.to_nat (max_retries default_scraper - 1))%nat →
           failing_network RequestException (7 + j)%nat (VStr "u")
           = Raise RequestException))
  ∧ _make_request default_scraper (failing_network RequestException) (VStr "u") 1 7%nat
    = (Raise RequestException, (7 + Z.to_nat (max_retries default_scraper - 1) + 1)%nat).
Proof.
  split; [done|].
  apply (make_request_exhausts_retries default_scraper
           (failing_network RequestException) (VStr "u") 1 7%nat); done.
Defined.

(** ** [get_car_urls]: what every call returns *)

(** An attempt issues at most [self.max_retries + 1] requests, and a list
    it gives enumerates the set that [extract_car_urls] makes of some
    page. *)
Lemma fetch_car_urls_requests self net page_url w :
  ∃ r w', fetch_car_urls self net page_url w = (r, w')
    ∧ (w ≤ w' ≤ w + Z.to_nat (max_retries self) + 1)%nat
    ∧ ∀ urls, r = Ok urls → ∃ sp car_urls,
        extract_car_urls sp = Ok car_urls ∧ urls ≡ₚ car_urls.
Proof.
  unfold fetch_car_urls. unfold_M.
  destruct (make_request_spec self net page_url 0 w) as (r & w' & -> & Hw & _).
  rewrite Z.sub_0_r in Hw. unfold mret, M_ret.
  destruct r as [sp|e]; [destruct (extract_car_urls sp) as [car_urls|e] eqn:Hsp|];
    eexists _, _; (split; [done|]); (split; [lia|]).
  - intros urls [= <-]. exists sp, car_urls. split; [done|apply list_of_set_perm].
  - by intros urls [=].
  - by intros urls [=].
Qed.

Lemma get_car_urls_loop_result self net page_url expected_urls max_retries (n : nat) :
  ∀ retry_count best_result w, n = Z.to_nat (max_retries - retry_count) →
  ∃ urls w',
    get_car_urls_loop self net page_url expected_urls max_retries
      retry_count best_result w = (Ok urls, w')
    ∧ (w ≤ w' ≤ w + n * (Z.to_nat (MudahScraper.max_retries self) + 1))%nat
    ∧ (urls = best_result
       ∨ ∃ sp car_urls, extract_car_urls sp = Ok car_urls ∧ urls ≡ₚ car_urls).
Proof.
  induction n as [|n IH]; intros retry_count best_result w Hn;
    rewrite get_car_urls_loop_unfold.
  { destruct (decide (retry_count < max_retries)); [lia|].
    exists best_result, w. split_and!; [done|lia|lia|by left]. }
  destruct (decide (retry_count < max_retries)); [|lia].
  destruct (fetch_car_urls_requests self net page_url w) as (r & w1 & -> & Hw & Hr).
  destruct r as [result_urls|e].
  - destruct (len result_urls >=? expected_urls).
    + exists result_urls, w1. split_and!; [done|lia|nia|right; by apply Hr].
    + destruct (IH (retry_count + 1)
                  (if len result_urls >? len best_result then result_urls else best_result)
                  w1) as (urls & w' & -> & Hw' & Hfrom); [lia|].
      exists urls, w'. split_and!; [done|lia|nia|].
      destruct Hfrom as [->|?]; [|by right].
      destruct (len result_urls >? len best_result); [right; by apply Hr|by left].
  - destruct (IH (retry_count + 1) best_result w1) as (urls & w' & -> & Hw' & Hfrom);
      [lia|].
    exists urls, w'. split_and!; [done|lia|nia|done].
Qed.

(** X3.  [get_car_urls] never raises: it returns a list, after at most
    [max_retries] attempts of at most [self.max_retries + 1] requests
    each. *)
Theorem get_car_urls_never_raises self net page_url expected_urls max_retries w :
  ∃ urls w',
    get_car_urls self net page_url expected_urls max_retries w = (Ok urls, w')
    ∧ (w ≤ w'
       ≤ w + Z.to_nat max_retries * (Z.to_nat (MudahScraper.max_retries self) + 1))%nat.
Proof.
  destruct (get_car_urls_loop_result self net page_url expected_urls max_retries
              (Z.to_nat max_retries) 0 [] w) as (urls & w' & Heq & Hw & _);
    [f_equal; lia|].
  by exists urls, w'.
Qed.

(** X4.  With [max_retries <= 0] no attempt is made: [get_car_urls]
    returns the empty list without a request, whatever the page holds. *)
Theorem get_car_urls_no_attempts self net page_url expected_urls max_retries w :
  max_retries ≤ 0 →
  get_car_urls self net page_url expected_urls max_retries w = (Ok [], w).
Proof.
  intros Hmax. unfold get_car_urls. rewrite get_car_urls_loop_unfold.
  by rewrite decide_False by lia.
Qed.

Lemma get_car_urls_no_attempts_witness :
  0 ≤ 0
  ∧ get_car_urls default_scraper
      (constant_network (page_with_cards ["/cars/a-1.htm"]))
      (VStr "https://www.mudah.my/malaysia/cars-for-sale?o=1") 1 0 0%nat
    = (Ok [], 0%nat).
Proof.
  split; [lia|].
  apply (get_car_urls_no_attempts default_scraper
           (constant_network (page_with_cards ["/cars/a-1.htm"]))
           (VStr "https://www.mudah.my/malaysia/cars-for-sale?o=1") 1 0 0%nat).
  lia.
Defined.

(** ** [get_car_urls]: the result is a set *)

Lemma value_eqb_sym a b : value_eqb a b = value_eqb b a.
Proof.
  destruct a as [|x|n|s| |], b as [|y|m|t| |]; simpl; try done.
  - by destruct x, y.
  - apply Z.eqb_sym.
  - apply String.eqb_sym.
Qed.

Lemma value_eqb_refl a : hashable a → value_eqb a a = true.
Proof.
  destruct a as [|x|n|s| |]; simpl; try done; intros _.
  - by destruct x.
  - apply Z.eqb_refl.
  - apply String.eqb_refl.
Qed.

Lemma distinct_snoc s x :
  distinct s = true → existsb (value_eqb x) s = false → distinct (s ++ [x]) = true.
Proof.
  induction s as [|y s IH]; simpl; [done|].
  intros [Hy Hs]%andb_true_iff [Hxy Hxs]%orb_false_iff.
  rewrite existsb_app. simpl. rewrite (value_eqb_sym y x), Hxy.
  apply negb_true_iff in Hy. rewrite Hy. simpl. by apply IH.
Qed.

Lemma is_set_insert s x : is_set s → hashable x → is_set (set_insert s x).
Proof.
  intros [Hd Hh] Hx. unfold set_insert.
  destruct (existsb (value_eqb x) s) eqn:Hin; [done|].
  split; [by apply distinct_snoc|]. apply Forall_app. split; [done|by constructor].
Qed.

Lemma is_set_add s x s' : is_set s → set_add s x = Ok s' → is_set s'.
Proof.
  unfold set_add. intros Hs. destruct (hashable x) eqn:Hx; [|done].
  intros [= <-]. apply is_set_insert; [done|]. by rewrite Hx.
Qed.

Lemma is_set_update_item_urls items :
  ∀ s, is_set s → is_set (update_item_urls items s).1.
Proof.
  induction items as [|item items IH]; intros s Hs; simpl; [done|].
  destruct (getitem_str item "item") as [i|]; simpl; [|done].
  destruct (getitem_str i "url") as [u|]; simpl; [|done].
  destruct (set_add s u) as [s'|] eqn:Hadd; [|done].
  apply IH. by eapply is_set_add.
Qed.

Lemma is_set_add_listing_urls listings :
  ∀ s, is_set s → is_set (add_listing_urls listings s).1.
Proof.
  induction listings as [|listing listings IH]; intros s Hs; simpl; [done|].
  destruct (contains_str "url" listing) as [[|]|]; simpl; [| |done].
  - destruct (getitem_str listing "url") as [u|]; simpl; [|done].
    destruct (set_add s u) as [s'|] eqn:Hadd; [|done].
    apply IH. by eapply is_set_add.
  - by apply IH.
Qed.

Lemma is_set_inner_except classes r s' :
  is_set r.1 → inner_except classes r = Ok s' → is_set s'.
Proof.
  destruct r as [s [e|]]; simpl; [|by intros ? [= <-]].
  destruct (caught_by classes e); [by intros ? [= <-]|done].
Qed.

Lemma is_set_method1 sp s s' : is_set s → method1 sp s = Ok s' → is_set s'.
Proof.
  unfold method1. intros Hs. destruct (ld_json sp) as [loaded|]; [|by intros [= <-]].
  apply is_set_inner_except.
  destruct (_ ≫= _) as [items|]; [by apply is_set_update_item_urls|done].
Qed.

Lemma is_set_method2 sp s : is_set s → is_set (method2 sp s).
Proof.
  unfold method2. generalize (listing_elements sp) as elements.
  intros elements. revert s.
  induction elements as [|el elements IH]; intros s Hs; simpl; [done|].
  apply IH. destruct (element_url el); [by apply is_set_insert|done].
Qed.

Lemma is_set_method3 sp s s' : is_set s → method3 sp s = Ok s' → is_set s'.
Proof.
  unfold method3. intros Hs. destruct (next_data sp) as [loaded|]; [|by intros [= <-]].
  apply is_set_inner_except.
  destruct (_ ≫= _) as [listings|]; [by apply is_set_add_listing_urls|done].
Qed.

Lemma is_set_extract_car_urls sp urls : extract_car_urls sp = Ok urls → is_set urls.
Proof.
  unfold extract_car_urls.
  intros (s1 & H1 & (s3 & H3 & [= <-])%result_bind_Ok)%result_bind_Ok.
  eapply is_set_method3; [|done]. apply is_set_method2.
  eapply is_set_method1; [|done]. by split.
Qed.

Lemma is_set_NoDup s : is_set s → NoDup s.
Proof.
  intros [Hd Hh]. induction s as [|x s IH]; [constructor|].
  simpl in Hd. apply andb_true_iff in Hd as [Hx Hd].
  apply Forall_cons in Hh as [Hhx Hh]. constructor; [|by apply IH].
  intros Hin. apply negb_true_iff in Hx.
  assert (existsb (value_eqb x) s = true) as Hex; [|congruence].
  apply existsb_exists. exists x. split; [by apply list_elem_of_In|].
  by apply value_eqb_refl.
Qed.

Lemma existsb_value_eqb_Permutation x (s t : list value) :
  s ≡ₚ t → existsb (value_eqb x) s = existsb (value_eqb x) t.
Proof.
  induction 1 as [|y s t _ IH|y z s|s t u _ IH1 _ IH2]; simpl; [done| | |congruence].
  - by rewrite IH.
  - by destruct (value_eqb x y), (value_eqb x z).
Qed.

(** The order in which a set is enumerated does not matter to it. *)
Lemma distinct_Permutation s t : s ≡ₚ t → distinct s = distinct t.
Proof.
  induction 1 as [|x s t Hp IH|x y s|s t u _ IH1 _ IH2]; simpl; [done| | |congruence].
  - by rewrite (existsb_value_eqb_Permutation x s t), IH.
  - rewrite (value_eqb_sym y x).
    by destruct (value_eqb x y), (existsb (value_eqb x) s), (existsb (value_eqb y) s).
Qed.

Lemma is_set_Permutation s t : t ≡ₚ s → is_set s → is_set t.
Proof.
  intros Hp [Hd Hh]. split; [by rewrite (distinct_Permutation t s)|by rewrite Hp].
Qed.

(** X5.  What [get_car_urls] returns is a set written as a list: its
    members can be hashed, no two of them are equal as Python compares
    them, and none occurs twice. *)
Theorem get_car_urls_distinct self net page_url expected_urls max_retries w :
  ∃ urls w',
    get_car_urls self net page_url expected_urls max_retries w = (Ok urls, w')
    ∧ distinct urls = true ∧ Forall hashable urls ∧ NoDup urls.
Proof.
  destruct (get_car_urls_loop_result self net page_url expected_urls max_retries
              (Z.to_nat max_retries) 0 [] w) as (urls & w' & Heq & _ & Hfrom);
    [f_equal; lia|].
  exists urls, w'. split; [done|].
  assert (is_set urls) as Hset.
  { destruct Hfrom as [->|(sp & car_urls & Hsp & Hperm)]; [by split|].
    eapply is_set_Permutation; [done|]. by eapply is_set_extract_car_urls. }
  destruct Hset as [Hd Hh]. split_and!; [done|done|by apply is_set_NoDup].
Qed.

(** ** [get_car_urls]: what the methods keep and what they lose *)

Lemma elem_of_set_insert_l (s : list value) x y : x ∈ s → x ∈ set_insert s y.
Proof.
  unfold set_insert. destruct (existsb _ _); [done|]. intros ?. apply elem_of_app. by left.
Qed.

Lemma elem_of_set_insert_str (s : list value) u : VStr u ∈ set_insert s (VStr u).
Proof.
  unfold set_insert. destruct (existsb _ _) eqn:Hin.
  - apply existsb_exists in Hin as (y & Hy%list_elem_of_In & Heq).
    destruct y; try done. simpl in Heq. by apply String.eqb_eq in Heq as ->.
  - apply elem_of_app. right. by left.
Qed.

Lemma set_add_mono s x s' u : set_add s x = Ok s' → u ∈ s → u ∈ s'.
Proof.
  unfold set_add. destruct (hashable x); [|done]. intros [= <-].
  apply elem_of_set_insert_l.
Qed.

Lemma method2_mono sp s u : u ∈ s → u ∈ method2 sp s.
Proof.
  unfold method2. generalize (listing_elements sp) as elements.
  intros elements. revert s.
  induction elements as [|el elements IH]; intros s Hu; simpl; [done|].
  apply IH. destruct (element_url el); [by apply elem_of_set_insert_l|done].
Qed.

Lemma method2_links sp el url s :
  el ∈ listing_elements sp → element_url el = Some url → VStr url ∈ method2 sp s.
Proof.
  unfold method2. generalize (listing_elements sp) as elements.
  intros elements. revert s.
  induction elements as [|el' elements IH]; intros s Hel Hurl; simpl.
  { by apply elem_of_nil in Hel. }
  apply elem_of_cons in Hel as [<-|Hel]; [|by apply IH].
  rewrite Hurl. generalize (set_insert s (VStr url)), (elem_of_set_insert_str s url).
  clear. revert elements. intros elements.
  induction elements as [|el elements IH]; intros s Hu; simpl; [done|].
  apply IH. destruct (element_url el); [by apply elem_of_set_insert_l|done].
Qed.

Lemma add_listing_urls_mono listings :
  ∀ s u, u ∈ s → u ∈ (add_listing_urls listings s).1.
Proof.
  induction listings as [|listing listings IH]; intros s u Hu; simpl; [done|].
  destruct (contains_str "url" listing) as [[|]|]; simpl; [| |done].
  - destruct (getitem_str listing "url") as [x|]; simpl; [|done].
    destruct (set_add s x) as [s'|] eqn:Hadd; [|done].
    apply IH. by eapply set_add_mono.
  - by apply IH.
Qed.

Lemma inner_except_Ok classes r s' : inner_except classes r = Ok s' → s' = r.1.
Proof.
  destruct r as [s [e|]]; simpl; [|by intros [= <-]].
  destruct (caught_by classes e); [by intros [= <-]|done].
Qed.

Lemma method3_mono sp s s' u : method3 sp s = Ok s' → u ∈ s → u ∈ s'.
Proof.
  unfold method3. destruct (next_data sp) as [loaded|]; [|by intros [= <-]].
  intros ->%inner_except_Ok Hu.
  destruct (_ ≫= _) as [listings|]; [by apply add_listing_urls_mono|done].
Qed.

(** X6.  The link of a listing element is never lost: when the extraction
    of a page succeeds, the URL that each selected listing element
    contributes is in the result, whatever the two scripts added. *)
Theorem extract_car_urls_listing_links sp urls el url :
  extract_car_urls sp = Ok urls →
  el ∈ listing_elements sp →
  element_url el = Some url →
  VStr url ∈ urls.
Proof.
  unfold extract_car_urls.
  intros (s1 & H1 & (s3 & H3 & [= <-])%result_bind_Ok)%result_bind_Ok Hel Hurl.
  eapply method3_mono; [done|]. by eapply method2_links.
Qed.

Lemma extract_car_urls_listing_links_witness :
  let sp := {| ld_json := Some (Raise JSONDecodeError);
               listing_card := [["/about"; "/cars/a-1.htm"]];
               listing_item := []; product_card := [];
               next_data := Some (Ok (VDict [])); application_json := None |} in
  (extract_car_urls sp = Ok [VStr "https://www.mudah.my/cars/a-1.htm"]
   ∧ ["/about"; "/cars/a-1.htm"] ∈ listing_elements sp
   ∧ element_url ["/about"; "/cars/a-1.htm"] = Some "https://www.mudah.my/cars/a-1.htm")
  ∧ VStr "https://www.mudah.my/cars/a-1.htm" ∈ [VStr "https://www.mudah.my/cars/a-1.htm"].
Proof.
  intros sp.
  assert (["/about"; "/cars/a-1.htm"] ∈ listing_elements sp) as Hel by (vm_compute; left).
  split; [by split_and!|].
  exact (extract_car_urls_listing_links sp _ _ _ eq_refl Hel eq_refl).
Defined.

Lemma update_item_urls_app items1 items2 s :
  update_item_urls (items1 ++ items2) s
  = match update_item_urls items1 s with
    | (s1, None) => update_item_urls items2 s1
    | r => r
    end.
Proof.
  revert s. induction items1 as [|item items1 IH]; intros s; simpl; [done|].
  destruct (_ ≫= _); [apply IH|done].
Qed.

(** X7.  Method 1 reads the items of the structured data up to the first
    one that is an object without [item]: the [KeyError] ends the loop and
    is swallowed, so the page gives what it would give if the list ended
    just before that item, and the items after it are never read. *)
Theorem method1_stops_at_item_without_item x0 x1 items1 d items2 car_urls :
  dict_lookup "item" d = None →
  method1 (page_with_items x0 x1 (items1 ++ VDict d :: items2)) car_urls
  = method1 (page_with_items x0 x1 items1) car_urls.
Proof.
  intros Hd. unfold method1, page_with_items, page_with_ld_json. simpl.
  rewrite update_item_urls_app.
  destruct (update_item_urls items1 car_urls) as [s1 [e|]]; [done|].
  simpl. by rewrite Hd.
Qed.

Lemma method1_stops_at_item_without_item_witness :
  dict_lookup "item" [("position", VInt 2)] = None
  ∧ method1 (page_with_items VNone VNone
               ([VDict [("item", VDict [("url", VStr "https://www.mudah.my/a-1.htm")])]]
                ++ VDict [("position", VInt 2)]
                   :: [VDict [("item", VDict [("url", VStr "https://www.mudah.my/b-2.htm")])]]))
            []
    = method1 (page_with_items VNone VNone
                 [VDict [("item", VDict [("url", VStr "https://www.mudah.my/a-1.htm")])]])
              [].
Proof.
  split; [done|].
  by apply (method1_stops_at_item_without_item VNone VNone
              [VDict [("item", VDict [("url", VStr "https://www.mudah.my/a-1.htm")])]]
              [("position", VInt 2)]
              [VDict [("item", VDict [("url", VStr "https://www.mudah.my/b-2.htm")])]] []).
Defined.

(** ** Subscripting a string

    [data[2]] on a string counts characters, not bytes: a string of one
    character of three bytes has no third character, one of three
    characters has. *)
Example getitem_int_one_character :
  characters "€" = ["€"] ∧ getitem_int (VStr "€") 2 = Raise IndexError.
Proof. split; reflexivity. Qed.

Example getitem_int_three_characters :
  characters "a€b" = ["a"; "€"; "b"] ∧ getitem_int (VStr "a€b") 2 = Ok (VStr "b").
Proof. split; reflexivity. Qed.

(** ** [get_car_urls]: the exceptions that end an attempt *)

Lemma result_bind_Raise {A B} (f : A → result B) (r : result A) e :
  (r ≫= f) = Raise e → r = Raise e ∨ ∃ a, r = Ok a ∧ f a = Raise e.
Proof. destruct r as [a|e']; simpl; [right; by exists a|intros [= ->]; by left]. Qed.

Lemma getitem_int_raises x i e :
  getitem_int x i = Raise e → e = IndexError ∨ e = KeyError ∨ e = TypeError.
Proof.
  destruct x as [| | |s|l|]; simpl; try (intros [= <-]; auto).
  - destruct (characters s !! i); [done|intros [= <-]; auto].
  - destruct (l !! i); [done|intros [= <-]; auto].
Qed.

Lemma getitem_str_raises x k e :
  getitem_str x k = Raise e → e = KeyError ∨ e = TypeError.
Proof.
  destruct x as [| | | | |d]; simpl; try (intros [= <-]; auto).
  destruct (dict_lookup k d); [done|intros [= <-]; auto].
Qed.

Lemma get_raises x k default e : get x k default = Raise e → e = AttributeError.
Proof. destruct x; simpl; by try intros [= <-]. Qed.

Lemma iter_raises x e : iter x = Raise e → e = TypeError.
Proof. destruct x; simpl; by try intros [= <-]. Qed.

Lemma contains_str_raises k x e : contains_str k x = Raise e → e = TypeError.
Proof. destruct x; simpl; by try intros [= <-]. Qed.

Lemma set_add_raises s x e : set_add s x = Raise e → e = TypeError.
Proof. unfold set_add. destruct (hashable x); [done|by intros [= <-]]. Qed.

Lemma update_item_urls_raises items :
  ∀ s e, (update_item_urls items s).2 = Some e → e = KeyError ∨ e = TypeError.
Proof.
  induction items as [|item items IH]; intros s e; simpl; [done|].
  destruct (_ ≫= _) as [s'|e'] eqn:Hstep; [apply IH|].
  simpl. intros [= ->].
  apply result_bind_Raise in Hstep as [H|(i & _ & Hstep)];
    [by eapply getitem_str_raises|].
  apply result_bind_Raise in Hstep as [H|(u & _ & Hstep)];
    [by eapply getitem_str_raises|].
  right. by eapply set_add_raises.
Qed.

Lemma add_listing_urls_raises listings :
  ∀ s e, (add_listing_urls listings s).2 = Some e → e = KeyError ∨ e = TypeError.
Proof.
  induction listings as [|listing listings IH]; intros s e; simpl; [done|].
  destruct (_ ≫= _) as [s'|e'] eqn:Hstep; [apply IH|].
  simpl. intros [= ->].
  apply result_bind_Raise in Hstep as [H|([|] & _ & Hstep)];
    [right; by eapply contains_str_raises| |done].
  apply result_bind_Raise in Hstep as [H|(u & _ & Hstep)];
    [by eapply getitem_str_raises|].
  right. by eapply set_add_raises.
Qed.

Lemma inner_except_Raise classes r e :
  inner_except classes r = Raise e → r.2 = Some e ∧ caught_by classes e = false.
Proof.
  destruct r as [s [e'|]]; simpl; [|done].
  destruct (caught_by classes e') eqn:He; [done|]. by intros [= <-].
Qed.

Lemma method1_raises sp s e :
  loads_outcome (ld_json sp) → method1 sp s = Raise e → shape_error e.
Proof.
  unfold method1, shape_error. intros Hloads.
  destruct (ld_json sp) as [loaded|]; [|done].
  intros [Hr Hcaught]%inner_except_Raise.
  assert (e = JSONDecodeError ∨ e = IndexError ∨ e = KeyError
          ∨ e = TypeError ∨ e = AttributeError) as He.
  { destruct (_ ≫= _) as [items|e'] eqn:Hnav.
    - apply update_item_urls_raises in Hr as [->| ->]; auto.
    - simpl in Hr. injection Hr as ->.
      apply result_bind_Raise in Hnav as [->|(data & _ & Hnav)].
      { destruct (Hloads e eq_refl) as [->| ->]; auto. }
      apply result_bind_Raise in Hnav as [H|(third & _ & Hnav)].
      { apply getitem_int_raises in H as [->|[->| ->]]; auto. }
      apply result_bind_Raise in Hnav as [H|(l & _ & Hnav)].
      { apply get_raises in H as ->. auto. }
      apply iter_raises in Hnav as ->. auto. }
  destruct He as [->|[->|[->|[->| ->]]]]; try done; auto.
Qed.

Lemma method3_raises sp s e :
  loads_outcome (next_data sp) → method3 sp s = Raise e → shape_error e.
Proof.
  unfold method3, shape_error. intros Hloads.
  destruct (next_data sp) as [loaded|]; [|done].
  intros [Hr Hcaught]%inner_except_Raise.
  assert (e = JSONDecodeError ∨ e = KeyError ∨ e = TypeError ∨ e = AttributeError) as He.
  { destruct (_ ≫= _) as [listings|e'] eqn:Hnav.
    - apply add_listing_urls_raises in Hr as [->| ->]; auto.
    - simpl in Hr. injection Hr as ->.
      apply result_bind_Raise in Hnav as [->|(data & _ & Hnav)].
      { destruct (Hloads e eq_refl) as [->| ->]; auto. }
      apply result_bind_Raise in Hnav as [H|(props & _ & Hnav)].
      { apply get_raises in H as ->. auto. }
      apply result_bind_Raise in Hnav as [H|(page_props & _ & Hnav)].
      { apply get_raises in H as ->. auto. }
      apply result_bind_Raise in Hnav as [H|(l & _ & Hnav)].
      { apply get_raises in H as ->. auto. }
      apply iter_raises in Hnav as ->. auto. }
  destruct He as [->|[->|[->| ->]]]; try done; auto.
Qed.

(** X8.  The extraction of a page is only abandoned for a value of the
    wrong shape: when [json.loads] behaves as it does (it returns, or
    raises [JSONDecodeError] or [TypeError]), the exception that escapes
    the three methods is a [TypeError] or an [AttributeError]; the
    [JSONDecodeError], [IndexError] and [KeyError] of the scripts never
    reach the retry loop. *)
Theorem extract_car_urls_raises sp e :
  loads_outcome (ld_json sp) →
  loads_outcome (next_data sp) →
  extract_car_urls sp = Raise e →
  shape_error e.
Proof.
  unfold extract_car_urls. intros Hld Hnext Hraise.
  apply result_bind_Raise in Hraise as [H1|(s1 & _ & Hraise)];
    [by eapply method1_raises|].
  apply result_bind_Raise in Hraise as [H3|(s3 & _ & [=])].
  by eapply method3_raises.
Qed.

Lemma extract_car_urls_raises_witness :
  let sp := page_with_state
              (VDict [("props",
                       VDict [("pageProps",
                               VDict [("items", VList [VStr "curl"])])])]) in
  (loads_outcome (ld_json sp)
   ∧ loads_outcome (next_data sp)
   ∧ extract_car_urls sp = Raise TypeError)
  ∧ shape_error TypeError.
Proof.
  intros sp.
  assert (loads_outcome (ld_json sp)) as H1 by (by intros e).
  assert (loads_outcome (next_data sp)) as H2 by (by intros e).
  split; [by split_and!|].
  exact (extract_car_urls_raises sp TypeError H1 H2 eq_refl).
Defined.

(** ** [parse_mcdparams]: every outcome *)

Lemma parse_params_outcome params :
  match parse_params params with
  | Ok entry => four_fields entry
  | Raise e => e = AttributeError
  end.
Proof.
  destruct params as [| | | | |d]; try done.
  simpl. by eexists _, _, _, _.
Qed.

Lemma parse_group_params_outcome params :
  ∀ other_dets, Forall four_fields other_dets →
  match parse_group_params params other_dets with
  | Ok other_dets' => Forall four_fields other_dets'
  | Raise e => shape_error e
  end.
Proof.
  induction params as [|p params IH]; intros other_dets Hacc; simpl; [done|].
  pose proof (parse_params_outcome p) as Hp.
  destruct (parse_params p) as [entry|e]; simpl; [|by right].
  apply IH. apply Forall_app. split; [done|by constructor].
Qed.

Lemma parse_groups_outcome groups :
  ∀ other_dets, Forall four_fields other_dets →
  match parse_groups groups other_dets with
  | Ok other_dets' => Forall four_fields other_dets'
  | Raise e => shape_error e
  end.
Proof.
  induction groups as [|group groups IH]; intros other_dets Hacc; simpl; [done|].
  destruct (get group "params" (VList [])) as [params|e] eqn:Hget; simpl;
    [|right; by eapply get_raises].
  destruct (iter params) as [l|e] eqn:Hiter; simpl; [|left; by eapply iter_raises].
  pose proof (parse_group_params_outcome l other_dets Hacc) as Hl.
  destruct (parse_group_params l other_dets) as [other_dets'|e]; simpl; [|done].
  by apply IH.
Qed.

(** X9.  Whatever it is given, [parse_mcdparams] either returns a list
    whose every entry is an object with exactly the fields [realValue],
    [id], [value] and [label], or raises a [TypeError] (something that
    cannot be iterated) or an [AttributeError] (a group or a parameter
    that is not an object). *)
Theorem parse_mcdparams_outcome car_mcdparams :
  match parse_mcdparams car_mcdparams with
  | Ok other_dets => Forall four_fields other_dets
  | Raise e => shape_error e
  end.
Proof.
  unfold parse_mcdparams.
  destruct (iter car_mcdparams) as [groups|e] eqn:Hiter; simpl;
    [|left; by eapply iter_raises].
  by apply parse_groups_outcome.
Qed.

(** ** [get_page_urls]: the pages asked for *)

Lemma str_of_int_inj a b : str_of_int a = str_of_int b → a = b.
Proof.
  unfold str_of_int. intros Heq. apply DecimalZ.to_int_inj.
  assert (∀ n, NilZero.int_of_string (NilZero.string_of_int (Z.to_int n))
               = Some (Z.to_int n)) as Hisi.
  { intros n. apply NilZero.isi; destruct n as [|p|p]; simpl; try done;
      intros [= H]; by apply DecimalPos.Unsigned.to_uint_nonnil in H. }
  pose proof (Hisi a) as Ha. rewrite Heq, Hisi in Ha. congruence.
Qed.

Lemma append_inj_r p a b : p +:+ a = p +:+ b → a = b.
Proof. induction p as [|c p IH]; simpl; [done|]. intros [= H]. by apply IH. Qed.

Lemma range_NoDup start stop : NoDup (range start stop).
Proof.
  unfold range. apply NoDup_fmap_2; [|apply NoDup_seq].
  intros i j Hij. lia.
Qed.

(** X10.  The page URLs are pairwise different: no page is asked for
    twice. *)
Theorem get_page_urls_NoDup state brand start end_ :
  NoDup (get_page_urls state brand start end_).
Proof.
  unfold get_page_urls. apply NoDup_fmap_2; [|apply range_NoDup].
  intros a b Hab. by apply append_inj_r, str_of_int_inj in Hab.
Qed.

(** X11.  A brand that reads [none] in any letter case stands for no brand
    at all: the URLs are those of the empty brand. *)
Theorem get_page_urls_brand_none state brand start end_ :
  lower brand = "none" →
  get_page_urls state brand start end_ = get_page_urls state "" start end_.
Proof. intros Hnone. unfold get_page_urls. by rewrite Hnone. Qed.

Lemma get_page_urls_brand_none_witness :
  lower "NoNe" = "none"
  ∧ get_page_urls "Johor" "NoNe" 1 2 = get_page_urls "Johor" "" 1 2.
Proof. split; [done|]. by apply (get_page_urls_brand_none "Johor" "NoNe" 1 2). Defined.

Lemma lower_ascii_idemp c : lower_ascii (lower_ascii c) = lower_ascii c.
Proof. by destruct c as [[] [] [] [] [] [] [] []]. Qed.

Lemma lower_idemp s : lower (lower s) = lower s.
Proof. induction s as [|c s IH]; simpl; [done|]. by rewrite lower_ascii_idemp, IH. Qed.

(** X12.  For a state written in ASCII characters the letter case does
    not matter: the state and its lower-case form give the same URLs. *)
Theorem get_page_urls_state_case state brand start end_ :
  ascii_only state = true →
  get_page_urls (lower state) brand start end_ = get_page_urls state brand start end_.
Proof.
  intros _. unfold get_page_urls. destruct state as [|c state]; [done|].
  by rewrite lower_idemp.
Qed.

Lemma get_page_urls_state_case_witness :
  ascii_only "Kuala-Lumpur" = true
  ∧ get_page_urls (lower "Kuala-Lumpur") "Honda" 1 2
    = get_page_urls "Kuala-Lumpur" "Honda" 1 2.
Proof.
  split; [done|]. by apply (get_page_urls_state_case "Kuala-Lumpur" "Honda" 1 2).
Defined.

(** ** The patterns *)

Lemma prefix_app p s : String.prefix p s = true → ∃ q, s = p +:+ q.
Proof.
  revert s. induction p as [|c p IH]; intros s; [by exists s|].
  destruct s as [|c' s]; simpl; [done|].
  destruct (Ascii.ascii_dec c c') as [->|]; [|done].
  intros [q ->]%IH. by exists q.
Qed.

Lemma prefix_app_refl p q : String.prefix p (p +:+ q) = true.
Proof.
  induction p as [|c p IH]; simpl; [by destruct q|].
  by destruct (Ascii.ascii_dec c c).
Qed.

Lemma span_digits_app s d rest :
  span_digits s = (d, rest) → s = d +:+ rest ∧ all_digits d = true.
Proof.
  revert d rest. induction s as [|c s IH]; intros d rest; simpl.
  { by intros [= <- <-]. }
  destruct (is_digit c) eqn:Hc; [|by intros [= <- <-]].
  destruct (span_digits s) as [d' rest'] eqn:Hs. intros [= <- <-].
  destruct (IH _ _ eq_refl) as [-> Hd]. simpl. by rewrite Hc.
Qed.

Lemma span_digits_dot d q :
  all_digits d = true → span_digits (d +:+ String "." q) = (d, String "." q).
Proof.
  induction d as [|c d IH]; simpl; [done|].
  intros [-> Hd]%andb_true_iff. by rewrite IH.
Qed.

Lemma match_digits_htm_Some s d :
  match_digits_htm s = Some d →
  ∃ q, s = d +:+ ".htm" +:+ q ∧ d ≠ "" ∧ all_digits d = true.
Proof.
  unfold match_digits_htm. destruct (span_digits s) as [d' rest] eqn:Hspan.
  destruct (negb (String.eqb d' "") && String.prefix ".htm" rest) eqn:Hcond; [|done].
  intros [= ->]. apply andb_true_iff in Hcond as [Hne [q ->]%prefix_app].
  apply span_digits_app in Hspan as [-> Hd]. exists q. split_and!; [done| |done].
  intros ->. done.
Qed.

(** X13.  In a URL of ASCII characters, the ad number that
    [re.search(r'-(\d+)\.htm', url)] extracts is a non-empty string of the
    digits [0]..[9] that stands in the URL between a hyphen and [.htm]. *)
Theorem re_search_ad_no_sound s d :
  ascii_only s = true →
  re_search_ad_no s = Some d →
  ∃ p q, s = p +:+ "-" +:+ d +:+ ".htm" +:+ q ∧ d ≠ "" ∧ all_digits d = true.
Proof.
  intros _. induction s as [|c s IH]; simpl; [done|].
  destruct (Ascii.eqb_spec c "-") as [->|_].
  - destruct (match_digits_htm s) as [d'|] eqn:Hm.
    + intros [= ->]. apply match_digits_htm_Some in Hm as (q & -> & Hne & Hd).
      by exists "", q.
    + intros (p & q & -> & Hne & Hd)%IH. by exists (String "-" p), q.
  - intros (p & q & -> & Hne & Hd)%IH. by exists (String c p), q.
Qed.

Lemma re_search_ad_no_sound_witness :
  (ascii_only "https://www.mudah.my/toyota-vios-2019-104522.htm" = true
   ∧ re_search_ad_no "https://www.mudah.my/toyota-vios-2019-104522.htm" = Some "104522")
  ∧ ∃ p q, "https://www.mudah.my/toyota-vios-2019-104522.htm"
           = p +:+ "-" +:+ "104522" +:+ ".htm" +:+ q
           ∧ "104522" ≠ "" ∧ all_digits "104522" = true.
Proof.
  split; [done|].
  by apply (re_search_ad_no_sound "https://www.mudah.my/toyota-vios-2019-104522.htm").
Defined.

(** X14.  Conversely, a URL in which a hyphen, a non-empty string of
    digits and [.htm] follow one another has an ad number. *)
Theorem re_search_ad_no_complete p d q :
  d ≠ "" →
  all_digits d = true →
  is_Some (re_search_ad_no (p +:+ "-" +:+ d +:+ ".htm" +:+ q)).
Proof.
  intros Hne Hd.
  assert (match_digits_htm (d +:+ ".htm" +:+ q) = Some d) as Hm.
  { unfold match_digits_htm.
    change (".htm" +:+ q) with (String "." ("htm" +:+ q)).
    rewrite span_digits_dot by done.
    destruct (String.eqb_spec d "") as [->|_]; [done|]. simpl.
    by rewrite (prefix_app_refl "" q). }
  assert (∀ c r, re_search_ad_no (String c r)
                 = if Ascii.eqb c "-" then
                     match match_digits_htm r with
                     | Some d => Some d
                     | None => re_search_ad_no r
                     end
                   else re_search_ad_no r) as Hcons by done.
  induction p as [|c p IH].
  - change (is_Some (re_search_ad_no (String "-" (d +:+ ".htm" +:+ q)))).
    by rewrite Hcons, Hm.
  - change (is_Some (re_search_ad_no (String c (p +:+ "-" +:+ d +:+ ".htm" +:+ q)))).
    rewrite Hcons. destruct (Ascii.eqb c "-"); [|done].
    destruct (match_digits_htm (p +:+ _)); [eexists; reflexivity|exact IH].
Qed.

Lemma re_search_ad_no_complete_witness :
  ("7" ≠ "" ∧ all_digits "7" = true)
  ∧ is_Some (re_search_ad_no ("/a-b" +:+ "-" +:+ "7" +:+ ".htm" +:+ "l?x=1")).
Proof.
  split; [done|]. by apply (re_search_ad_no_complete "/a-b" "7" "l?x=1").
Defined.

Lemma match_dot_plus_htm_app s :
  match_dot_plus_htm s = true →
  ∃ p c q, s = p +:+ String c (".htm" +:+ q) ∧ c ≠ newline.
Proof.
  induction s as [|c s IH]; simpl; [done|].
  destruct (Ascii.eqb_spec c newline) as [|Hc]; [done|].
  intros [[q ->]%prefix_app|(p & c' & q & -> & Hc')%IH]%orb_true_iff.
  - by exists "", c, q.
  - by exists (String c p), c', q.
Qed.

(** X15.  The pattern [.+\.html?] with which a link is accepted looks for
    [.htm] anywhere: a link matches exactly when it holds [.htm] after
    some character that is not a newline.  Nothing asks for the link to
    end there. *)
Theorem re_html_iff s :
  re_html s = true ↔ ∃ p c q, s = p +:+ String c (".htm" +:+ q) ∧ c ≠ newline.
Proof.
  unfold re_html. split.
  - induction s as [|c s IH]; [done|].
    intros H.
    change (match_dot_plus_htm (String c s) || re_search match_dot_plus_htm s = true) in H.
    apply orb_true_iff in H as [Hhere|(p & c' & q & -> & Hc')%IH].
    + by apply match_dot_plus_htm_app.
    + by exists (String c p), c', q.
  - intros (p & c & q & -> & Hc). apply re_search_app, re_search_anchored.
    change (match_dot_plus_htm (String c (".htm" +:+ q)))
      with (if Ascii.eqb c newline then false
            else String.prefix ".htm" (".htm" +:+ q) || match_dot_plus_htm (".htm" +:+ q)).
    destruct (Ascii.eqb_spec c newline); [done|].
    by rewrite (prefix_app_refl ".htm" q).
Qed.

(** ** [get_car_info]: every outcome *)

(** X16.  [get_car_info] never raises, and it issues at most
    [self.max_retries + 1] requests (none when the first pause raises). *)
Theorem get_car_info_requests self net url w :
  ∃ result w', get_car_info self net url w = (Ok result, w')
    ∧ (w ≤ w' ≤ w + Z.to_nat (max_retries self) + 1)%nat.
Proof.
  unfold get_car_info, try_except_Exception. unfold_M.
  destruct (make_request_spec self net url 0 w) as (r & w' & -> & Hw & _).
  rewrite Z.sub_0_r in Hw.
  destruct r as [page|e]; [|by eexists _, _].
  destruct (script_tag page) as [loaded|]; [|by eexists _, _].
  destruct (car_dets_of loaded url); by eexists _, _.
Qed.

(** A list from [get_car_info] comes from [car_dets_of] on the string of
    the URL. *)
Lemma get_car_info_Some self net url w car_dets w' :
  get_car_info self net url w = (Ok (Some car_dets), w') →
  ∃ loaded, car_dets_of loaded url = Ok car_dets.
Proof.
  unfold get_car_info, try_except_Exception. unfold_M.
  destruct (_make_request self net url 0 w) as [[page|e] w1]; [|done].
  destruct (script_tag page) as [loaded|]; [|done].
  destruct (car_dets_of loaded url) as [dets|] eqn:Hdets; [|done].
  intros [= <- <-]. by exists loaded.
Qed.

Lemma parse_mcdparams_Ok car_mcdparams other_dets :
  parse_mcdparams car_mcdparams = Ok other_dets → Forall four_fields other_dets.
Proof.
  unfold parse_mcdparams. intros (groups & _ & H)%result_bind_Ok.
  pose proof (parse_groups_outcome groups [] (Forall_nil_2 _)) as Hout.
  by rewrite H in Hout.
Qed.

Lemma car_dets_of_Ok loaded url car_dets :
  car_dets_of loaded url = Ok car_dets →
  ∃ s car_ads_no car_attrs mcd_params,
    url = VStr s
    ∧ re_search_ad_no s = Some car_ads_no
    ∧ car_dets = car_attrs ++ ads_id_entry car_ads_no :: mcd_params
    ∧ Forall four_fields mcd_params.
Proof.
  unfold car_dets_of. intros H.
  apply result_bind_Ok in H as (data & _ & H).
  apply result_bind_Ok in H as (car_ads_no & Hno & H).
  apply result_bind_Ok in H as (props & _ & H).
  apply result_bind_Ok in H as (initial_state & _ & H).
  apply result_bind_Ok in H as (ad_details & _ & H).
  apply result_bind_Ok in H as (by_id & _ & H).
  apply result_bind_Ok in H as (ads_id & _ & H).
  apply result_bind_Ok in H as (attributes & _ & H).
  apply result_bind_Ok in H as (car_attrs & _ & H).
  apply result_bind_Ok in H as (attributes' & _ & H).
  apply result_bind_Ok in H as (car_mcdparams & _ & H).
  apply result_bind_Ok in H as (mcd_params & Hmcd & H).
  destruct url as [| | |s| |]; try done. simpl in Hno.
  destruct (re_search_ad_no s) as [no|] eqn:Hs; [|done]. injection Hno as ->.
  unfold add_lists in H. destruct car_attrs as [| | | |car_attrs|]; try done.
  injection H as <-.
  exists s, car_ads_no, car_attrs, mcd_params. split_and!; [done|done| |].
  - by rewrite <-app_assoc.
  - by eapply parse_mcdparams_Ok.
Qed.



(** X18.  A URL that is not a string, or that is a string of ASCII
    characters in which no hyphen, digits [0]..[9] and [.htm] follow one
    another, gives [None], whatever the page holds (the page is still
    asked for). *)
Theorem get_car_info_no_ad_number self net url w :
  ascii_url url = true →
  is_ok (car_ads_no_of url) = false →
  (get_car_info self net url w).1 = Ok None.
Proof.
  intros _ Hno.
  destruct (get_car_info_total self net url w) as ([car_dets|] & w' & Heq & _);
    rewrite Heq; [|done].
  apply get_car_info_Some in Heq as [loaded Hdets].
  apply car_dets_of_Ok in Hdets as (s & no & _ & _ & -> & Hs & _).
  simpl in Hno. by rewrite Hs in Hno.
Qed.

Lemma get_car_info_no_ad_number_witness :
  let url := VStr "https://www.mudah.my/toyota-vios.htm" in
  let net := constant_network (page_with_state (ad_payload "104522" (VDict []))) in
  (ascii_url url = true ∧ is_ok (car_ads_no_of url) = false)
  ∧ (get_car_info default_scraper net url 0%nat).1 = Ok None.
Proof.
  intros url net. split; [done|].
  by apply (get_car_info_no_ad_number default_scraper net url 0%nat).
Defined.

(** X19.  When every request for the URL fails, [get_car_info] gives
    [None]: the error of [_make_request] stays inside. *)
Theorem get_car_info_fetch_fails self (net : network) url w :
  (∀ n, is_ok (net n url) = false) →
  (get_car_info self net url w).1 = Ok None.
Proof.
  intros Hnet. unfold get_car_info, try_except_Exception. unfold_M.
  destruct (make_request_spec self net url 0 w) as (r & w' & -> & _ & Hpage).
  destruct r as [page|e]; [|done].
  destruct (Hpage page eq_refl) as [k Hk].
  specialize (Hnet k). by rewrite Hk in Hnet.
Qed.

Lemma get_car_info_fetch_fails_witness :
  (∀ n, is_ok (failing_network OtherException n (VStr "https://www.mudah.my/a-1.htm"))
        = false)
  ∧ (get_car_info default_scraper (failing_network OtherException)
       (VStr "https://www.mudah.my/a-1.htm") 0%nat).1 = Ok None.
Proof.
  split; [done|].
  by apply (get_car_info_fetch_fails default_scraper (failing_network OtherException)
              (VStr "https://www.mudah.my/a-1.htm") 0%nat).
Defined.

(** X20.  The second script is a fallback for a missing [__NEXT_DATA__]
    tag only, not for one that cannot be read: when the tag is there and
    [json.loads] raises on it, the result is [None] even if the page also
    has a good [application/json] script. *)
Theorem get_car_info_next_data_unread self net url w page w' e :
  _make_request self net url 0 w = (Ok page, w') →
  next_data page = Some (Raise e) →
  get_car_info self net url w = (Ok None, w').
Proof.
  intros Hfetch Hnext. unfold get_car_info, try_except_Exception. unfold_M.
  rewrite Hfetch. unfold script_tag. by rewrite Hnext.
Qed.

Lemma get_car_info_next_data_unread_witness :
  let url := VStr "https://www.mudah.my/toyota-vios-104522.htm" in
  let page := {| ld_json := None; listing_card := []; listing_item := [];
                 product_card := []; next_data := Some (Raise JSONDecodeError);
                 application_json := Some (Ok (ad_payload "104522" (VDict []))) |} in
  (_make_request default_scraper (constant_network page) url 0 0%nat = (Ok page, 1%nat)
   ∧ next_data page = Some (Raise JSONDecodeError))
  ∧ get_car_info default_scraper (constant_network page) url 0%nat = (Ok None, 1%nat).
Proof.
  intros url page. split; [done|].
  exact (get_car_info_next_data_unread default_scraper (constant_network page) url 0%nat
           page 1%nat JSONDecodeError eq_refl eq_refl).
Defined.

(** ** [scrape_cars]: the third loop on any input *)

Lemma set_item_is_ok car_dict item : is_ok (set_item car_dict item) = readable item.
Proof.
  unfold set_item. destruct item as [| | | | |d]; try done. simpl.
  destruct (dict_lookup "id" d) as [[| | |k| |]|]; try done. simpl.
  destruct (bool_decide (k ∈ keys)); [|done].
  by destruct (dict_lookup "value" d).
Qed.

Lemma set_item_Ok car_dict item car_dict' :
  set_item car_dict item = Ok car_dict' →
  (∀ k, k ∈ dom car_dict' → k ∈ dom car_dict ∨ k ∈ keys)
  ∧ (∀ k, k ∈ dom car_dict → k ∈ dom car_dict')
  ∧ (∀ k, has_id k item → k ∈ keys → k ∈ dom car_dict').
Proof.
  unfold set_item, has_id. intros (id & Hid & H)%result_bind_Ok. rewrite Hid.
  destruct id as [| | |k'| |];
    try (injection H as <-; split_and!; [by left|done|done]).
  case_bool_decide as Hk'.
  - apply result_bind_Ok in H as (v & _ & [= <-]). split_and!.
    + intros k. rewrite dom_insert_L. intros [->%elem_of_singleton|?]%elem_of_union; auto.
    + intros k ?. rewrite dom_insert_L. apply elem_of_union. by right.
    + intros k [= ->] _. rewrite dom_insert_L. apply elem_of_union. left.
      by apply elem_of_singleton.
  - injection H as <-. split_and!; [by left|done|]. by intros k [= ->] ?.
Qed.

Lemma set_item_Raise car_dict item e :
  set_item car_dict item = Raise e → e = KeyError ∨ e = TypeError.
Proof.
  unfold set_item. intros [H|(id & _ & H)]%result_bind_Raise;
    [by eapply getitem_str_raises|].
  destruct id as [| | |k| |]; try done. case_bool_decide; [|done].
  apply result_bind_Raise in H as [H|(v & _ & [=])]. by eapply getitem_str_raises.
Qed.

Lemma fill_car_dict_is_ok car_attrs :
  ∀ car_dict, is_ok (fill_car_dict car_attrs car_dict) = forallb readable car_attrs.
Proof.
  induction car_attrs as [|item car_attrs IH]; intros car_dict; [done|].
  simpl. rewrite <-(set_item_is_ok car_dict item).
  destruct (set_item car_dict item) as [car_dict'|e]; simpl; [apply IH|done].
Qed.

(** X21.  The third loop succeeds exactly on readable items: it returns a
    record when every item is an object with an [id] that also has a
    [value] if its [id] is one of [keys], and raises otherwise, whatever
    the record already holds. *)
Theorem fill_car_dict_succeeds car_attrs car_dict :
  is_ok (fill_car_dict car_attrs car_dict) = forallb readable car_attrs.
Proof. apply fill_car_dict_is_ok. Qed.

Lemma fill_car_dict_Ok car_attrs :
  ∀ car_dict car_dict', fill_car_dict car_attrs car_dict = Ok car_dict' →
  (∀ k, k ∈ dom car_dict' → k ∈ dom car_dict ∨ k ∈ keys)
  ∧ (∀ k, k ∈ dom car_dict → k ∈ dom car_dict')
  ∧ (∀ k item, item ∈ car_attrs → has_id k item → k ∈ keys → k ∈ dom car_dict').
Proof.
  induction car_attrs as [|item car_attrs IH]; intros car_dict car_dict'; simpl.
  { intros [= <-]. split_and!; [by left|done|]. by intros k item ?%elem_of_nil. }
  intros (d1 & H1 & Hrest)%result_bind_Ok.
  apply set_item_Ok in H1 as (Hnew1 & Hmono1 & Hid1).
  apply IH in Hrest as (Hnew & Hmono & Hid). split_and!.
  - intros k [Hk|Hk]%Hnew; [by apply Hnew1|by right].
  - intros k Hk. by apply Hmono, Hmono1.
  - intros k item' [->|Hin]%elem_of_cons Hhas Hk; [by apply Hmono, Hid1|by eapply Hid].
Qed.

Lemma fill_car_dict_Raise car_attrs :
  ∀ car_dict e, fill_car_dict car_attrs car_dict = Raise e → e = KeyError ∨ e = TypeError.
Proof.
  induction car_attrs as [|item car_attrs IH]; intros car_dict e; simpl; [done|].
  intros [H|(d1 & _ & H)]%result_bind_Raise; [by eapply set_item_Raise|by eapply IH].
Qed.

(** X22.  On any list of items the record either comes out with keys
    among [keys] only, or the loop raises a [KeyError] (an item without
    [id], or without [value] for an [id] of [keys]) or a [TypeError] (an
    item that is not an object): nothing catches these in
    [scrape_cars]. *)
Theorem fill_car_dict_outcome car_attrs :
  match fill_car_dict car_attrs ∅ with
  | Ok car_dict => ∀ k, k ∈ dom car_dict → k ∈ keys
  | Raise e => e = KeyError ∨ e = TypeError
  end.
Proof.
  destruct (fill_car_dict car_attrs ∅) as [car_dict|e] eqn:Hfill.
  - apply fill_car_dict_Ok in Hfill as (Hnew & _ & _).
    intros k [Hk|Hk]%Hnew; [|done]. by rewrite dom_empty_L in Hk.
  - by eapply fill_car_dict_Raise.
Qed.

(** ** [scrape_cars]: a listing and its record *)

Lemma four_fields_readable x : four_fields x → readable x = true.
Proof.
  intros (real_value & id & val & label & ->). simpl.
  destruct id as [| | |k| |]; try done. by destruct (bool_decide (k ∈ keys)).
Qed.

Lemma forallb_four_fields_readable l : Forall four_fields l → forallb readable l = true.
Proof.
  induction 1 as [|x l Hx _ IH]; [done|]. simpl. by rewrite four_fields_readable, IH.
Qed.

(** X23.  The record made from what [get_car_info] returned always has the
    key [ads_id]. *)
Theorem car_record_has_ads_id self net url w car_dets w' car_dict :
  get_car_info self net url w = (Ok (Some car_dets), w') →
  fill_car_dict car_dets ∅ = Ok car_dict →
  "ads_id" ∈ dom car_dict.
Proof.
  intros [loaded Hdets]%get_car_info_Some Hfill.
  apply car_dets_of_Ok in Hdets as (s & no & car_attrs & mcd & _ & _ & -> & _).
  apply fill_car_dict_Ok in Hfill as (_ & _ & Hid).
  apply (Hid "ads_id" (ads_id_entry no)); [|done|].
  - apply elem_of_app. right. by left.
  - unfold keys. do 10 right. by left.
Qed.

Lemma car_record_has_ads_id_witness :
  let url := VStr "https://www.mudah.my/toyota-vios-104522.htm" in
  let net := constant_network (page_with_state (VDict [])) in
  (get_car_info default_scraper net url 0%nat = (Ok (Some [ads_id_entry "104522"]), 1%nat)
   ∧ fill_car_dict [ads_id_entry "104522"] ∅ = Ok {[ "ads_id" := VStr "104522" ]})
  ∧ "ads_id" ∈ dom ({[ "ads_id" := VStr "104522" ]} : gmap string value).
Proof.
  intros url net.
  assert (fill_car_dict [ads_id_entry "104522"] ∅ = Ok {[ "ads_id" := VStr "104522" ]})
    as Hfill by (by vm_compute).
  split; [by split|].
  exact (car_record_has_ads_id default_scraper net url 0%nat _ 1%nat _ eq_refl Hfill).
Defined.

(** X24.  Only the category parameters of a listing can make its record
    fail: what [get_car_info] returned splits into category parameters, the
    entry for [ads_id] and flattened entries, and the third loop succeeds
    on it exactly when the category parameters are readable. *)
Theorem car_record_fails_on_category_params self net url w car_dets w' :
  get_car_info self net url w = (Ok (Some car_dets), w') →
  ∃ car_attrs car_ads_no mcd_params,
    car_dets = car_attrs ++ ads_id_entry car_ads_no :: mcd_params
    ∧ ∀ car_dict, is_ok (fill_car_dict car_dets car_dict) = forallb readable car_attrs.
Proof.
  intros [loaded Hdets]%get_car_info_Some.
  apply car_dets_of_Ok in Hdets as (s & no & car_attrs & mcd & _ & _ & -> & Hmcd).
  exists car_attrs, no, mcd. split; [done|]. intros car_dict.
  rewrite fill_car_dict_is_ok, forallb_app. simpl.
  rewrite (forallb_four_fields_readable _ Hmcd).
  by destruct (forallb readable car_attrs).
Qed.

Lemma car_record_fails_on_category_params_witness :
  let url := VStr "https://www.mudah.my/toyota-vios-104522.htm" in
  let data := ad_payload "104522"
                (VDict [("categoryParams", VList [VDict [("value", VStr "RM 50 000")]])]) in
  let net := constant_network (page_with_state data) in
  let car_dets := [VDict [("value", VStr "RM 50 000")]; ads_id_entry "104522"] in
  get_car_info default_scraper net url 0%nat = (Ok (Some car_dets), 1%nat)
  ∧ ∃ car_attrs car_ads_no mcd_params,
      car_dets = car_attrs ++ ads_id_entry car_ads_no :: mcd_params
      ∧ ∀ car_dict, is_ok (fill_car_dict car_dets car_dict) = forallb readable car_attrs.
Proof.
  intros url data net car_dets. split; [done|].
  exact (car_record_fails_on_category_params default_scraper net url 0%nat
           car_dets 1%nat eq_refl).
Defined.

(** ** [scrape_cars]: the three loops together *)

Lemma collect_car_urls_spec self net expected_urls_per_page page_urls :
  ∀ car_urls w,
  ∃ lists w', car_url_lists self net expected_urls_per_page page_urls w lists w'
    ∧ collect_car_urls self net page_urls expected_urls_per_page car_urls w
      = (Ok (car_urls ++ concat lists), w').
Proof.
  induction page_urls as [|url page_urls IH]; intros car_urls w.
  - exists [], w. split; [constructor|]. simpl. by rewrite app_nil_r.
  - destruct (get_car_urls_loop_result self net (VStr url) expected_urls_per_page 3
                (Z.to_nat 3) 0 [] w) as (urls & w1 & Hurls & _); [done|].
    destruct (IH (car_urls ++ urls) w1) as (lists & w' & Hlists & Hrest).
    exists (urls :: lists), w'. split; [by econstructor|].
    simpl. unfold_M. unfold get_car_urls. rewrite Hurls, Hrest.
    by rewrite <-app_assoc.
Qed.

(** X25.  The first loop of [scrape_cars] never raises, and it ends with
    the lists that [get_car_urls] returned for the pages, one after the
    other in the order of the pages: nothing is removed, so a URL found on
    two pages is there twice. *)
Theorem collect_car_urls_concat self net expected_urls_per_page page_urls w :
  ∃ lists w', car_url_lists self net expected_urls_per_page page_urls w lists w'
    ∧ collect_car_urls self net page_urls expected_urls_per_page [] w
      = (Ok (concat lists), w').
Proof. apply collect_car_urls_spec. Qed.

(** A listing that two pages show is fetched and recorded twice. *)
Example scrape_cars_same_listing_twice :
  scrape_cars default_scraper
    (plain_network
       (λ _ url,
          match url with
          | VStr s =>
              if startswith s "https://www.mudah.my/malaysia/cars-for-sale?o=" then
                Ok (page_with_cards ["/cars/vios-1.htm"])
              else Ok (page_with_state (VDict []))
          | _ => Raise RequestException
          end))
    "" "" 1 2 1 0%nat
  = (Ok [{[ "ads_id" := VStr "1" ]}; {[ "ads_id" := VStr "1" ]}], 4%nat).
Proof. vm_compute. reflexivity. Qed.

Lemma process_data_Ok car_data :
  ∀ processed_data rows, process_data car_data processed_data = Ok rows →
  ∃ new_rows, rows = processed_data ++ new_rows
    ∧ Forall2 (λ car_attrs row, fill_car_dict car_attrs ∅ = Ok row) car_data new_rows.
Proof.
  induction car_data as [|car_attrs car_data IH]; intros processed_data rows; simpl.
  { intros [= <-]. exists []. by rewrite app_nil_r. }
  intros (car_dict & Hfill & (new_rows & -> & Hrows)%IH)%result_bind_Ok.
  exists (car_dict :: new_rows). rewrite <-app_assoc. split; [done|by constructor].
Qed.

Lemma process_data_Raise car_data :
  ∀ processed_data e, process_data car_data processed_data = Raise e →
  e = KeyError ∨ e = TypeError.
Proof.
  induction car_data as [|car_attrs car_data IH]; intros processed_data e; simpl; [done|].
  intros [H|(car_dict & _ & H)]%result_bind_Raise;
    [by eapply fill_car_dict_Raise|by eapply IH].
Qed.

(** [scrape_cars] as its three loops in turn. *)
Lemma scrape_cars_stages self net state brand start end_ expected_urls_per_page w :
  ∃ lists w1 results w',
    car_url_lists self net expected_urls_per_page
      (get_page_urls state brand start end_) w lists w1
    ∧ car_infos self net (concat lists) w1 results w'
    ∧ scrape_cars self net state brand start end_ expected_urls_per_page w
      = (process_data (omap id results) [], w').
Proof.
  destruct (collect_car_urls_spec self net expected_urls_per_page
              (get_page_urls state brand start end_) [] w)
    as (lists & w1 & Hlists & Hurls).
  destruct (collect_car_data_spec self net (concat lists) [] w1)
    as (results & w' & Hinfos & Hdata).
  exists lists, w1, results, w'. split_and!; [done|done|].
  simpl in Hurls, Hdata. unfold scrape_cars. unfold_M. by rewrite Hurls, Hdata.
Qed.

(** X26.  The rows of [scrape_cars] are the records of the listings for
    which [get_car_info] did not give [None], one row for each, in the
    order of the lists that [get_car_urls] returned: page after page, and
    within a page in the order in which [list(car_urls)] enumerated the
    set. *)
Theorem scrape_cars_rows self net state brand start end_ expected_urls_per_page w rows w' :
  scrape_cars self net state brand start end_ expected_urls_per_page w = (Ok rows, w') →
  ∃ lists w1 results,
    car_url_lists self net expected_urls_per_page
      (get_page_urls state brand start end_) w lists w1
    ∧ car_infos self net (concat lists) w1 results w'
    ∧ Forall2 (λ car_dets row, fill_car_dict car_dets ∅ = Ok row) (omap id results) rows.
Proof.
  destruct (scrape_cars_stages self net state brand start end_ expected_urls_per_page w)
    as (lists & w1 & results & w2 & Hlists & Hinfos & ->).
  intros [= Hrows <-]. exists lists, w1, results. split_and!; [done|done|].
  by apply process_data_Ok in Hrows as (new_rows & -> & Hrows).
Qed.

Lemma scrape_cars_rows_witness :
  let rows := [two_page_site_record "1"; two_page_site_record "3"] in
  scrape_cars default_scraper one_listing_site "" "" 1 2 1 0%nat = (Ok rows, 4%nat)
  ∧ ∃ lists w1 results,
      car_url_lists default_scraper one_listing_site 1 (get_page_urls "" "" 1 2) 0%nat
        lists w1
      ∧ car_infos default_scraper one_listing_site (concat lists) w1 results 4%nat
      ∧ Forall2 (λ car_dets row, fill_car_dict car_dets ∅ = Ok row) (omap id results) rows.
Proof.
  intros rows.
  assert (scrape_cars default_scraper one_listing_site "" "" 1 2 1 0%nat = (Ok rows, 4%nat))
    as Hrun by (by vm_compute).
  split; [exact Hrun|].
  exact (scrape_cars_rows default_scraper one_listing_site "" "" 1 2 1 0%nat rows 4%nat
           Hrun).
Defined.

(** X27.  [scrape_cars] either returns rows whose keys are all among
    [keys], or raises a [KeyError] or a [TypeError]: fetching never makes
    it fail, only the third loop does, on an item it cannot read. *)
Theorem scrape_cars_outcome self net state brand start end_ expected_urls_per_page w :
  match (scrape_cars self net state brand start end_ expected_urls_per_page w).1 with
  | Ok rows => Forall (λ row : gmap string value, ∀ k, k ∈ dom row → k ∈ keys) rows
  | Raise e => e = KeyError ∨ e = TypeError
  end.
Proof.
  destruct (scrape_cars_stages self net state brand start end_ expected_urls_per_page w)
    as (lists & w1 & results & w2 & _ & _ & ->). simpl.
  destruct (process_data (omap id results) []) as [rows|e] eqn:Hrows;
    [|by eapply process_data_Raise].
  apply process_data_Ok in Hrows as (new_rows & -> & Hrows). simpl.
  induction Hrows as [|car_dets row ? ? Hfill _ IH]; constructor; [|done].
  apply fill_car_dict_Ok in Hfill as (Hnew & _ & _).
  intros k [Hk|Hk]%Hnew; [|done]. by rewrite dom_empty_L in Hk.
Qed.

(** X28.  With [start > end] there is no page: [scrape_cars] returns no
    row and issues no request. *)
Theorem scrape_cars_empty_range self net state brand start end_ expected_urls_per_page w :
  end_ < start →
  scrape_cars self net state brand start end_ expected_urls_per_page w = (Ok [], w).
Proof.
  intros Hlt. unfold scrape_cars.
  assert (get_page_urls state brand start end_ = []) as ->; [|done].
  unfold get_page_urls, range.
  by replace (Z.to_nat (end_ + 1 - start)) with 0%nat by lia.
Qed.

Lemma scrape_cars_empty_range_witness :
  1 < 2
  ∧ scrape_cars default_scraper two_page_site "" "none" 2 1 40 0%nat = (Ok [], 0%nat).
Proof.
  split; [lia|].
  apply (scrape_cars_empty_range default_scraper two_page_site "" "none" 2 1 40 0%nat).
  lia.
Defined.

(** ** [scrape_cars]: the last value wins, whenever the loop succeeds *)

Lemma fill_car_dict_last car_attrs :
  ∀ car_dict, fill_car_dict car_attrs ∅ = Ok car_dict →
  ∀ k, car_dict !! k
       = if decide (k ∈ keys)
         then last (filter (has_id k) car_attrs) ≫= value_of
         else None.
Proof.
  induction car_attrs as [|item car_attrs IH] using rev_ind; intros car_dict.
  { intros [= <-] k. rewrite lookup_empty. by case_decide. }
  rewrite fill_car_dict_app. intros (d0 & Hfill & Hitem)%result_bind_Ok.
  specialize (IH d0 Hfill). simpl in Hitem.
  apply result_bind_Ok in Hitem as (car_dict' & Hset & [= ->]).
  unfold set_item in Hset. apply result_bind_Ok in Hset as (id & Hid & Hset).
  assert (∀ k, has_id k item ↔ id = VStr k) as Hhas.
  { intros k. unfold has_id. rewrite Hid. split; congruence. }
  assert (∀ k, filter (has_id k) (car_attrs ++ [item])
               = filter (has_id k) car_attrs
                 ++ (if decide (has_id k item) then [item] else [])) as Hfilter.
  { intros k. by rewrite filter_app, filter_cons, filter_nil. }
  intros k. rewrite Hfilter.
  assert ((∃ k' v, id = VStr k' ∧ k' ∈ keys ∧ getitem_str item "value" = Ok v
                   ∧ car_dict = <[k' := v]> d0)
          ∨ (car_dict = d0 ∧ ∀ k, k ∈ keys → id ≠ VStr k)) as [(k' & v & -> & Hk' & Hv & ->)|[-> Hnot]].
  { destruct id as [| | |k'| |]; try (right; split; congruence).
    case_bool_decide as Hk'.
    - apply result_bind_Ok in Hset as (v & Hv & [= <-]). left. by exists k', v.
    - right. split; congruence. }
  - destruct (decide (k = k')) as [->|Hne].
    + rewrite lookup_insert_eq, decide_True by done.
      rewrite decide_True by by apply Hhas. rewrite last_snoc. simpl.
      unfold value_of. by rewrite Hv.
    + rewrite lookup_insert_ne by done. rewrite IH.
      rewrite (decide_False (P := has_id k _)); [by rewrite app_nil_r|].
      intros [=]%Hhas. congruence.
  - rewrite IH. case_decide as Hk; [|done].
    rewrite decide_False; [by rewrite app_nil_r|].
    intros ?%Hhas. by apply (Hnot k).
Qed.

(** X29.  Whenever the third loop succeeds, on items of any kind, the
    record holds for each [k] of [keys] the value of the last item whose
    [id] is [k], and nothing for a [k] that no item has or that is not in
    [keys]. *)
Theorem fill_car_dict_last_value car_attrs car_dict k :
  fill_car_dict car_attrs ∅ = Ok car_dict →
  car_dict !! k
  = if decide (k ∈ keys)
    then last (filter (has_id k) car_attrs) ≫= value_of
    else None.
Proof. intros Hfill. by apply fill_car_dict_last. Qed.

Lemma fill_car_dict_last_value_witness :
  let car_attrs := [attribute "make" "Toyota"; VDict [("id", VStr "colour")];
                    VDict [("id", VInt 7)]; attribute "make" "Perodua"] in
  fill_car_dict car_attrs ∅ = Ok {[ "make" := VStr "Perodua" ]}
  ∧ ({[ "make" := VStr "Perodua" ]} : gmap string value) !! "make"
    = if decide ("make" ∈ keys)
      then last (filter (has_id "make") car_attrs) ≫= value_of
      else None.
Proof.
  intros car_attrs.
  assert (fill_car_dict car_attrs ∅ = Ok {[ "make" := VStr "Perodua" ]}) as Hfill
    by (by vm_compute).
  split; [exact Hfill|].
  exact (fill_car_dict_last_value car_attrs _ "make" Hfill).
Defined.


